(** * RegionWorker: the per-region work scheduler of the cost inventory

    A shallow embedding of [RegionWorker] (the abstract class that follows
    the progress component in [src/components/Progress.vue]) together with
    the part of the JavaScript runtime it talks to: the window timers, the
    promises it hands to its callers, and the requests that are in flight.

    JavaScript runs the worker on one thread.  Every method call and every
    callback (a timer firing, a promise reaction) runs to completion, so the
    worker is a transition system whose atomic steps are exactly those calls
    and callbacks; [step] below has one case per such step, and any
    interleaving of them is a run.

    Numbers.  The counters and the cancel token are JavaScript numbers that
    only ever hold 0, 1, 2, ...; they are modelled by [nat], which is exact
    as long as fewer than 2^53 increments take place.  Priorities are
    modelled by [Z].

    Collaborators.  A handler is modelled by what it returns or throws.
    What a handler or any other caller asks of the worker ([enqueueRequest],
    [enqueuePagedRequest], [start], [stop], [resetProgress]) is a step of
    its own.  [account.updateProgressLazy()], [setTimeout],
    [clearInterval], [request.promise()] and the handlers are recorded in
    the order they are called.  [enqueuePagedRequestFold], the pricing
    helpers and the resource helpers do not touch the scheduler's state
    and are left out. *)

From Stdlib Require Import ZArith Ascii PrimFloat.
From stdpp Require Import base tactics option list strings.


(** ** Values exchanged with collaborators *)

(** The JavaScript values the worker itself produces or passes on. *)
Inductive JsVal :=
  | VUndefined
  | VString (s : string)
  | VData (n : nat).

(** How a synchronous call or a promise ends: normally, or with a thrown
    (rejected) value. *)
Inductive Completion :=
  | Normal
  | Throw (e : JsVal).

(** An [AWS.Request] is opaque to the worker: all it does with one is call
    [promise()] on it. *)
Definition Request := nat.

(** A successful [PromiseResult]: the payload and the two pagination
    queries of [$response]. *)
Record Response := mkResponse {
  data : nat;
  hasNextPage : bool;
  nextPage : option Request }.

Inductive HandlerResult :=
  | Returns (v : JsVal)
  | Throws (e : JsVal).

(** [handler: (data: D) => R], a caller-supplied function that may throw. *)
Definition Handler := Response -> HandlerResult.

Definition CancelToken := nat.
Definition PromiseId := nat.

(** The closures the worker puts in its queue.  [enqueue] is private, so
    these two shapes, built by [enqueueRequest] and by
    [enqueuePagedRequest] / [handlePagedResponse], are the only ones.  The
    promise id names the [resolve] / [reject] pair the closure captured. *)
Inductive Fn :=
  | RequestFn (request : Request) (p : PromiseId) (handler : Handler)
  | PagedFn (priority : Z) (request : Request) (p : PromiseId) (handler : Handler).

Record QueueItem := mkItem {
  priority : Z;
  fn : Fn }.

(** ** The priority queue *)

(** Modelled from the spec: [PriorityQueue] ([../datastructures/priority-queue])
    is imported by the worker but its source is not part of the sources at
    hand.  Following section 4.1: [push] inserts, [pop] returns the item
    with the numerically lowest priority, ties broken by arrival order,
    wrapped in a Maybe; [clear] discards everything; [empty] tells whether
    any item remains. *)
Module PriorityQueue.

Definition t := list QueueItem.

Definition new : t := [].

Fixpoint push (x : QueueItem) (q : t) : t :=
  match q with
  | [] => [x]
  | y :: q' =>
      if (priority x <? priority y)%Z then x :: y :: q' else y :: push x q'
  end.

Definition pop (q : t) : option QueueItem * t :=
  match q with
  | [] => (None, [])
  | x :: q' => (Some x, q')
  end.

Definition clear (q : t) : t := [].

Definition empty (q : t) : bool :=
  match q with
  | [] => true
  | _ :: _ => false
  end.

End PriorityQueue.

(** ** The worker and its surroundings *)

Record RegionWorker := mkWorker {
  queue : PriorityQueue.t;
  queueFilled : bool;
  _started : bool;
  processing : bool;
  timeout : option nat;
  cancel : CancelToken;
  _progressDone : nat;
  _progressTotal : nat;
  _progressErrors : nat }.

Inductive PromiseState :=
  | Pending
  | Fulfilled (v : JsVal)
  | Rejected (e : JsVal).

(** Where a popped task stands.  [processQueue] builds the chain
    [one.fn(cancel).catch(..).finally(..)]; each link reacts in a callback
    of its own:
    - [Awaiting]: [request.promise()] has not settled yet;
    - [Settled c]: the promise returned by [one.fn] has settled with [c],
      the [catch] link has not reacted yet;
    - [Caught]: the [catch] link is through, the [finally] callback is
      still to run. *)
Inductive Phase :=
  | Awaiting
  | Settled (c : Completion)
  | Caught.

Record Task := mkTask {
  token : CancelToken;
  body : Fn;
  phase : Phase }.

(** Calls that are recorded as they happen: the collaborators the worker
    invokes, and its own [enqueue] and (successful) [resetProgress]. *)
Inductive Call :=
  | CallEnqueue
  | CallResetProgress
  | CallFillQueue
  | CallUpdateProgressLazy
  | CallHandler (response : Response)
  | CallSetTimeout (handle delay : nat)
  | CallClearInterval (handle : nat)
  | CallRequestPromise (request : Request).

Record World := mkWorld {
  self : RegionWorker;
  timers : list nat;
  nextTimer : nat;
  promises : list PromiseState;
  inflight : list Task;
  history : list Call }.

(** *** Field updates *)

Definition set_queue (q : PriorityQueue.t) (w : RegionWorker) : RegionWorker :=
  mkWorker q (queueFilled w) (_started w) (processing w) (timeout w) (cancel w)
           (_progressDone w) (_progressTotal w) (_progressErrors w).

Definition set_queueFilled (b : bool) (w : RegionWorker) : RegionWorker :=
  mkWorker (queue w) b (_started w) (processing w) (timeout w) (cancel w)
           (_progressDone w) (_progressTotal w) (_progressErrors w).

Definition set_started (b : bool) (w : RegionWorker) : RegionWorker :=
  mkWorker (queue w) (queueFilled w) b (processing w) (timeout w) (cancel w)
           (_progressDone w) (_progressTotal w) (_progressErrors w).

Definition set_processing (b : bool) (w : RegionWorker) : RegionWorker :=
  mkWorker (queue w) (queueFilled w) (_started w) b (timeout w) (cancel w)
           (_progressDone w) (_progressTotal w) (_progressErrors w).

Definition set_timeout (t : option nat) (w : RegionWorker) : RegionWorker :=
  mkWorker (queue w) (queueFilled w) (_started w) (processing w) t (cancel w)
           (_progressDone w) (_progressTotal w) (_progressErrors w).

Definition set_cancel (c : CancelToken) (w : RegionWorker) : RegionWorker :=
  mkWorker (queue w) (queueFilled w) (_started w) (processing w) (timeout w) c
           (_progressDone w) (_progressTotal w) (_progressErrors w).

Definition set_progressDone (n : nat) (w : RegionWorker) : RegionWorker :=
  mkWorker (queue w) (queueFilled w) (_started w) (processing w) (timeout w)
           (cancel w) n (_progressTotal w) (_progressErrors w).

Definition set_progressTotal (n : nat) (w : RegionWorker) : RegionWorker :=
  mkWorker (queue w) (queueFilled w) (_started w) (processing w) (timeout w)
           (cancel w) (_progressDone w) n (_progressErrors w).

Definition set_progressErrors (n : nat) (w : RegionWorker) : RegionWorker :=
  mkWorker (queue w) (queueFilled w) (_started w) (processing w) (timeout w)
           (cancel w) (_progressDone w) (_progressTotal w) n.

Definition on_self (f : RegionWorker -> RegionWorker) (s : World) : World :=
  mkWorld (f (self s)) (timers s) (nextTimer s) (promises s) (inflight s)
          (history s).

Definition set_timers (ts : list nat) (s : World) : World :=
  mkWorld (self s) ts (nextTimer s) (promises s) (inflight s) (history s).

Definition set_nextTimer (n : nat) (s : World) : World :=
  mkWorld (self s) (timers s) n (promises s) (inflight s) (history s).

Definition set_promises (ps : list PromiseState) (s : World) : World :=
  mkWorld (self s) (timers s) (nextTimer s) ps (inflight s) (history s).

Definition set_inflight (ts : list Task) (s : World) : World :=
  mkWorld (self s) (timers s) (nextTimer s) (promises s) ts (history s).

(** The most recent call is at the head of [history]. *)
Definition record (c : Call) (s : World) : World :=
  mkWorld (self s) (timers s) (nextTimer s) (promises s) (inflight s)
          (c :: history s).

Definition set_phase (ph : Phase) (t : Task) : Task :=
  mkTask (token t) (body t) ph.

(** A worker as its field initialisers leave it, in a runtime that has no
    timer and no promise yet.  Timer handles start at 1, as in browsers. *)
Definition new_worker : RegionWorker :=
  mkWorker PriorityQueue.new false false false None 0 0 0 0.

Definition new_world : World :=
  mkWorld new_worker [] 1 [] [] [].

(** ** Promises handed to callers *)

(** [new Promise(executor)]: the new promise's id, and the heap with it. *)
Definition newPromise (s : World) : PromiseId * World :=
  (length (promises s), set_promises (promises s ++ [Pending]) s).

(** [resolve] and [reject] act on a pending promise only; on a settled
    one they do nothing. *)
Definition settle (p : PromiseId) (st : PromiseState) (s : World) : World :=
  match promises s !! p with
  | Some Pending => set_promises (<[p := st]> (promises s)) s
  | _ => s
  end.

Definition resolve (p : PromiseId) (v : JsVal) : World -> World :=
  settle p (Fulfilled v).

Definition reject (p : PromiseId) (e : JsVal) : World -> World :=
  settle p (Rejected e).

(** ** Status getters *)

Definition started (s : World) : bool := _started (self s).

Definition finished (s : World) : bool :=
  PriorityQueue.empty (queue (self s)) && negb (processing (self s)).

Definition running (s : World) : bool := started s && negb (finished s).

Definition progressDone (s : World) : nat := _progressDone (self s).
Definition progressTotal (s : World) : nat := _progressTotal (self s).
Definition progressError (s : World) : nat := _progressErrors (self s).

(** [cancelled(token)]: [this.cancel !== token]. *)
Definition cancelled (s : World) (tok : CancelToken) : bool :=
  negb (cancel (self s) =? tok).

(** What a subclass's [fillQueue] asks for, in order: single requests and
    paged requests.  (Requests it submits later, from callbacks, are
    separate steps of the transition system.) *)
Inductive Submission :=
  | Single (priority : Z) (request : Request) (handler : Handler)
  | Paged (priority : Z) (request : Request) (handler : Handler).

(** The steps of the transition system: the calls made on the worker and
    the callbacks the runtime runs. *)
Inductive Event :=
  | CallsEnqueueRequest (priority : Z) (request : Request) (handler : Handler)
  | CallsEnqueuePagedRequest (priority : Z) (request : Request) (handler : Handler)
  | CallsStart
  | CallsStop
  | CallsResetProgress
  | TimerFires (handle : nat)
  | RequestSettles (i : nat) (r : Response + JsVal)
  | CatchRuns (i : nat)
  | FinallyRuns (i : nat).

(** The request and the promise a queued closure captured. *)
Definition request_of (f : Fn) : Request :=
  match f with
  | RequestFn request _ _ => request
  | PagedFn _ request _ _ => request
  end.

Definition promise_of (f : Fn) : PromiseId :=
  match f with
  | RequestFn _ p _ => p
  | PagedFn _ _ p _ => p
  end.

(** ** Measures used in the statements *)

Fixpoint count {A : Type} (f : A -> bool) (l : list A) : nat :=
  match l with
  | [] => 0
  | x :: l' => (if f x then 1 else 0) + count f l'
  end.

Definition is_fillQueue (c : Call) : bool :=
  match c with CallFillQueue => true | _ => false end.

(** The number of [enqueue] calls since the last successful
    [resetProgress] (or since construction, if there was none). *)
Fixpoint enqueues_since_reset (h : list Call) : nat :=
  match h with
  | [] => 0
  | CallResetProgress :: _ => 0
  | CallEnqueue :: h' => S (enqueues_since_reset h')
  | _ :: h' => enqueues_since_reset h'
  end.

(** The number of [fillQueue] calls since the last successful
    [resetProgress]. *)
Fixpoint fills_since_reset (h : list Call) : nat :=
  match h with
  | [] => 0
  | CallResetProgress :: _ => 0
  | CallFillQueue :: h' => S (fills_since_reset h')
  | _ :: h' => fills_since_reset h'
  end.

(** A task whose token is the epoch [c]. *)
Definition is_live (c : CancelToken) (t : Task) : bool := Nat.eqb (token t) c.

Definition is_awaiting (t : Task) : bool :=
  match phase t with Awaiting => true | _ => false end.

Definition is_caught (t : Task) : bool :=
  match phase t with Caught => true | _ => false end.

(** The three progress counters, in the order done, total, errors. *)
Definition counters (s : World) : nat * nat * nat :=
  (progressDone s, progressTotal s, progressError s).

Definition armed (s : World) : bool :=
  match timeout (self s) with Some _ => true | None => false end.

(** The promises that queued items and awaiting tasks still hold the
    [resolve] / [reject] pair of. *)
Definition awaiting_promises (l : list Task) : list PromiseId :=
  flat_map (fun t => if is_awaiting t then [promise_of (body t)] else []) l.

Definition held_promises (s : World) : list PromiseId :=
  map (fun x => promise_of (fn x)) (queue (self s)) ++ awaiting_promises (inflight s).

(** *** The ledger: queue, epoch, counters and tasks in flight *)

Definition live_caught (c : CancelToken) (t : Task) : bool :=
  is_live c t && is_caught t.

Definition ledger (s : World) :=
  (queue (self s), cancel (self s), counters s, inflight s).

(** Every task dispatched since the last reset is done, queued, or in
    flight with the current token; the errors counted are those of done
    tasks and of current tasks between [catch] and [finally]; no task
    holds a token from the future. *)
Definition balanced (s : World) : Prop :=
  progressTotal s
    = progressDone s + length (queue (self s))
      + count (is_live (cancel (self s))) (inflight s)
  /\ progressError s
     <= progressDone s + count (live_caught (cancel (self s))) (inflight s)
  /\ Forall (fun t => token t <= cancel (self s)) (inflight s).

(** *** Properties that hold along every run *)

(** The total counter is the number of recorded [enqueue] calls since the
    last reset. *)
Definition counted (s : World) : Prop :=
  progressTotal s = enqueues_since_reset (history s).

(** [queueFilled] tells whether [fillQueue] has been called since the last
    reset, and it has been called at most once. *)
Definition filled_once (s : World) : Prop :=
  fills_since_reset (history s) = if queueFilled (self s) then 1 else 0.

(** A started worker with queued work and no task processing has its pacer
    armed. *)
Definition paced (s : World) : Prop :=
  _started (self s) = true -> queue (self s) <> [] ->
  processing (self s) = false -> armed s = true.

(** The handle the worker keeps is the one timer pending in the window,
    and there is no other. *)
Definition one_timer (s : World) : Prop :=
  timers s = match timeout (self s) with Some h => [h] | None => [] end
  /\ Forall (fun h => h < nextTimer s) (timers s).

(** The pacer invariant as the specification words it: the pacer is armed
    if and only if the worker is started and the queue is non-empty, unless
    a task is processing (which re-arms on completion). *)
Definition pacer_iff_claim (s : World) : Prop :=
  (armed s = true <-> (_started (self s) = true /\ queue (self s) <> []))
  \/ processing (self s) = true.

(** What the promise bookkeeping depends on. *)
Definition vault (s : World) :=
  (queue (self s), inflight s, promises s).

(** No two queued items or awaiting tasks hold the same promise, and every
    promise so held is still pending. *)
Definition custody (s : World) : Prop :=
  NoDup (held_promises s)
  /\ forall p, p ∈ held_promises s -> promises s !! p = Some Pending.

(** *** Further measures *)

Definition is_enqueue (c : Call) : bool :=
  match c with CallEnqueue => true | _ => false end.

(** What identifies a task in flight whatever its phase: the token it
    captured and the closure it runs. *)
Definition task_id (t : Task) : CancelToken * Fn := (token t, body t).

(** The responses the handlers were called with, oldest first. *)
Definition handler_calls (h : list Call) : list Response :=
  rev (flat_map (fun c => match c with CallHandler r => [r] | _ => [] end) h).

(** A promise that is pending while no queued item and no awaiting task
    holds its [resolve] / [reject] pair. *)
Definition orphaned (p : PromiseId) (s : World) : Prop :=
  promises s !! p = Some Pending /\ p ∉ held_promises s.

(** *** A paged request running on its own *)

(** The callbacks that fetch one page: the pacer with handle [k] fires,
    the page arrives, and the [catch] and [finally] links react. *)
Definition page_events (k : nat) (resp : Response) : list Event :=
  [TimerFires k; RequestSettles 0 (inl resp); CatchRuns 0; FinallyRuns 0].

Fixpoint chain_events (k : nat) (pages : list Response) : list Event :=
  match pages with
  | [] => []
  | resp :: rest => page_events k resp ++ chain_events (S k) rest
  end.

(** The pages of one source: every page but the last announces a next
    page and yields the request for it; the last announces none. *)
Fixpoint linked (pages : list Response) : Prop :=
  match pages with
  | [] => False
  | [resp] => hasNextPage resp = false
  | resp :: rest =>
      hasNextPage resp = true /\ is_Some (nextPage resp) /\ linked rest
  end.

(** A started worker whose only work is one queued paged request with
    pending promise [p], and whose pacer is armed with handle [k]. *)
Definition poised (k : nat) (pr : Z) (p : PromiseId) (h : Handler) (s : World) : Prop :=
  (exists rq, queue (self s) = [mkItem pr (PagedFn pr rq p h)])
  /\ _started (self s) = true
  /\ timeout (self s) = Some k
  /\ timers s = [k]
  /\ nextTimer s = S k
  /\ inflight s = []
  /\ promises s !! p = Some Pending.

(** ** Names *)

(** [partition]: the ARN partition of a region, by [startsWith]. *)
Definition partition (region : string) : string :=
  if String.prefix "us-gov-" region then "aws-us-gov"
  else if String.prefix "cn-" region then "aws-cn"
  else "aws".

(** [fakeArn(service, name)]; [region] and [cloudId] stand for
    [this.region] and [this.account.model.cloudId]. *)
Definition fakeArn (region cloudId service name : string) : string :=
  "arn:" +:+ partition region +:+ ":" +:+ service +:+ ":" +:+ region +:+ ":"
  +:+ cloudId +:+ ":FAKE/" +:+ name.

(** [toLowerCase] on ASCII text: the letters A to Z are lowered and every
    other code below 128 is kept.  (Codes from 128 on are outside what is
    modelled; the statements below are about ASCII names.) *)
Definition lowerChar (c : ascii) : ascii :=
  let n := nat_of_ascii c in
  if (65 <=? n)%nat && (n <=? 90)%nat then ascii_of_nat (n + 32) else c.

Fixpoint toLowerCase (s : string) : string :=
  match s with
  | EmptyString => EmptyString
  | String c rest => String (lowerChar c) (toLowerCase rest)
  end.

(** [replace(/\-/g, '')]: every hyphen is removed. *)
Fixpoint removeDashes (s : string) : string :=
  match s with
  | EmptyString => EmptyString
  | String c rest =>
      if Ascii.eqb c "-" then removeDashes rest else String c (removeDashes rest)
  end.

Definition nameToCloudwatchId (name : string) : string :=
  removeDashes (toLowerCase name).

Definition chars (s : string) : list ascii := String.list_ascii_of_string s.

Definition is_upper (c : ascii) : bool :=
  (65 <=? nat_of_ascii c)%nat && (nat_of_ascii c <=? 90)%nat.

Definition ascii_only (s : string) : Prop :=
  Forall (fun c => nat_of_ascii c < 128) (chars s).

(** ** Cost arithmetic *)

(** JavaScript numbers are IEEE 754 doubles, as are the kernel's [float]s:
    [+], [-], [*], [/], [<] and [===] on numbers are [add], [sub], [mul],
    [div], [ltb] and [eqb]. *)

(** A number in a condition: false for +0, -0 and NaN. *)
Definition truthy (x : float) : bool :=
  negb (PrimFloat.is_zero x || PrimFloat.is_nan x).

(** [Math.min] of two numbers: NaN if either is, and -0 below +0. *)
Definition mathMin (a b : float) : float :=
  if PrimFloat.is_nan a || PrimFloat.is_nan b then PrimFloat.nan
  else if PrimFloat.ltb a b then a
  else if PrimFloat.ltb b a then b
  else if PrimFloat.get_sign a then a else b.

(** A pricing tier, as [tieredCalc] reads it: [count] (here [count_]),
    which may be missing, and [rate].  (The declaration of [Tier] is in [./pricing],
    outside the sources at hand.) *)
Record Tier := mkTier {
  count_ : option float;
  rate : float }.

Record CalculationDetail := mkDetail {
  cd_usage : float;
  cd_unit : option string;
  cd_rate : float;
  cd_subtotal : float;
  cd_subtotal1h : float }.

(** What a calculation returns, or the [TypeError] it throws. *)
Inductive Calc :=
  | Detail (d : CalculationDetail)
  | TypeError.

(** The body of the [forEach] in [tieredCalc], on the pair of [subtotal]
    and [left] (written [left_], [left] being taken). *)
Definition tierStep (acc : float * float) (tier : Tier) : float * float :=
  let '(subtotal, left_) := acc in
  if PrimFloat.ltb 0%float left_ then
    let chunk :=
      match count_ tier with
      | Some c => if truthy c then mathMin left_ c else left_
      | None => left_
      end in
    (PrimFloat.add subtotal (PrimFloat.mul chunk (rate tier)),
     PrimFloat.sub left_ chunk)
  else acc.

Definition tierLoop (usage : float) (tiers : list Tier) : float * float :=
  foldl tierStep (0%float, usage) tiers.

(** [tiers[0].rate] throws when there is no first tier. *)
Definition tieredCalc (usage : float) (tiers : list Tier) (seconds : float)
    (unit : option string) : Calc :=
  let subtotal := (tierLoop usage tiers).1 in
  let rate :=
    if truthy usage then Some (PrimFloat.div subtotal usage)
    else match tiers with
         | [] => None
         | tier :: _ => Some (rate tier)
         end in
  match rate with
  | None => TypeError
  | Some r =>
      Detail (mkDetail usage unit r subtotal
                (PrimFloat.div (PrimFloat.mul subtotal 3600%float) seconds))
  end.

(** ** Sample collaborators and scenarios *)

Definition echo : Handler := fun r => Returns (VData (data r)).

Definition lastPage : Response := mkResponse 1 false None.

(** One request is queued, started and fails. *)
Definition failing_run : list Event :=
  [CallsEnqueueRequest 0 7 echo; CallsStart; TimerFires 1;
   RequestSettles 0 (inr (VString "boom")); CatchRuns 0; FinallyRuns 0].

(** A second request is enqueued while the first is still awaiting its
    response, and the pacer that [enqueue] armed fires before it arrives. *)
Definition overlapping_run : list Event :=
  [CallsEnqueueRequest 0 7 echo; CallsStart; TimerFires 1;
   CallsEnqueueRequest 0 8 echo; TimerFires 2].

(** The worker is stopped while a task is in flight; the task then
    completes. *)
Definition stop_midflight_run : list Event :=
  [CallsEnqueueRequest 0 7 echo; CallsEnqueueRequest 0 8 echo; CallsStart;
   TimerFires 1; CallsStop; RequestSettles 0 (inl lastPage); CatchRuns 0;
   FinallyRuns 0].

(** A request is started, then the worker is stopped and reset, so that the
    task in flight holds the token of the previous epoch. *)
Definition superseded_run : list Event :=
  [CallsEnqueueRequest 0 7 echo; CallsStart; TimerFires 1; CallsStop;
   CallsResetProgress].

(** A paged request is started and awaits its first page. *)
Definition paged_run : list Event :=
  [CallsEnqueuePagedRequest 0 7 echo; CallsStart; TimerFires 1].

(** A page that announces a successor it cannot produce. *)
Definition lyingPage : Response := mkResponse 1 true None.

(** A request is started and its closure's promise is rejected. *)
Definition rejected_run : list Event :=
  [CallsEnqueueRequest 0 7 echo; CallsStart; TimerFires 1;
   RequestSettles 0 (inr (VString "boom"))].

(** Two requests submitted by [fillQueue]; the worker is stopped and
    started again while the first is in flight. *)
Definition two_requests : list Submission :=
  [Single 0 7 echo; Single 0 8 echo].

Definition restart_run : list Event :=
  [CallsStart; TimerFires 1; CallsStop; CallsStart; TimerFires 2].

(** A single request is started and awaits its response. *)
Definition single_run : list Event :=
  [CallsEnqueueRequest 0 7 echo; CallsStart; TimerFires 1].

(** What may follow the failure of that request. *)
Definition aftermath : list Event :=
  [CatchRuns 0; FinallyRuns 0; CallsStop; CallsResetProgress; CallsStart].

(** A paged request is started; the worker is then stopped and reset. *)
Definition superseded_paged_run : list Event :=
  paged_run ++ [CallsStop; CallsResetProgress].

(** A source of three pages. *)
Definition three_pages : list Response :=
  [mkResponse 1 true (Some 8); mkResponse 2 true (Some 9); mkResponse 3 false None].

(** The worker starts and its pacer fires for the first time. *)
Definition idle_run : list Event := [CallsStart; TimerFires 1].

(** The worker is stopped while a task is in flight, and the task has
    reached its [finally] callback. *)
Definition stopped_before_finally : list Event :=
  [CallsEnqueueRequest 0 7 echo; CallsEnqueueRequest 0 8 echo; CallsStart;
   TimerFires 1; CallsStop; RequestSettles 0 (inl lastPage); CatchRuns 0].

(** ** The worker's methods *)

Section Worker.

(** The abstract members of the class that the scheduler uses. *)
Variable workDelay : nat.
Variable fillItems : list Submission.

(** *** The pacer *)

Definition ensureTimeout (s : World) : World :=
  match timeout (self s) with
  | None =>
      let interval := nextTimer s in
      let s := record (CallSetTimeout interval workDelay) s in
      let s := set_nextTimer (S interval) (set_timers (interval :: timers s) s) in
      on_self (set_timeout (Some interval)) s
  | Some _ => s
  end.

(** [clearInterval] and [clearTimeout] share one pool of handles. *)
Definition discardTimeout (s : World) : World :=
  match timeout (self s) with
  | Some interval =>
      let s := record (CallClearInterval interval) s in
      let s := set_timers (filter (fun h => h <> interval) (timers s)) s in
      on_self (set_timeout None) s
  | None => s
  end.

(** *** Enqueueing *)

Definition enqueue (priority : Z) (fn : Fn) (s : World) : World :=
  let s := record CallEnqueue s in
  let s := on_self (fun w => set_progressTotal (S (_progressTotal w)) w) s in
  let s := on_self (fun w => set_queue (PriorityQueue.push (mkItem priority fn) (queue w)) w) s in
  let s := record CallUpdateProgressLazy s in
  if _started (self s) then ensureTimeout s else s.

(** The executor of [new Promise] runs at once, so the promise exists
    and the task is queued when [enqueueRequest] returns the promise. *)
Definition enqueueRequest (priority : Z) (request : Request) (handler : Handler)
    (s : World) : PromiseId * World :=
  let '(p, s) := newPromise s in
  (p, enqueue priority (RequestFn request p handler) s).

Definition enqueuePagedRequest (priority : Z) (request : Request) (handler : Handler)
    (s : World) : PromiseId * World :=
  let '(p, s) := newPromise s in
  (p, enqueue priority (PagedFn priority request p handler) s).

(** [p] stands for the [resolve] and [reject] arguments. *)
Definition handlePagedResponse (priority : Z) (response : Response)
    (tok : CancelToken) (handler : Handler) (p : PromiseId) (s : World)
    : World * Completion :=
  if cancelled s tok then (reject p (VString "cancelled") s, Normal)
  else
    let s := record (CallHandler response) s in
    match handler response with
    | Throws e => (s, Throw e)
    | Returns _ =>
        if hasNextPage response then
          match nextPage response with
          | None => (s, Throw (VString "AWS is a liar"))
          | Some next =>
              (enqueue priority (PagedFn priority next p handler) s, Normal)
          end
        else (resolve p VUndefined s, Normal)
    end.

(** What the closure in a queue item does once [request.promise()] has
    settled with [r], and how the promise it returned to [processQueue]
    ends.  For a paged request the [then] callback and the
    [catch(e => { reject(e); throw e; })] behind it are taken together. *)
Definition settleFn (tok : CancelToken) (f : Fn) (r : Response + JsVal)
    (s : World) : World * Completion :=
  match f with
  | RequestFn _ p handler =>
      match r with
      | inr e => (s, Throw e)
      | inl response =>
          if cancelled s tok then (reject p (VString "cancelled") s, Normal)
          else
            let s := record (CallHandler response) s in
            match handler response with
            | Returns v => (resolve p v s, Normal)
            | Throws e => (s, Throw e)
            end
      end
  | PagedFn priority _ p handler =>
      let '(s, c) :=
        match r with
        | inl response => handlePagedResponse priority response tok handler p s
        | inr e => (s, Throw e)
        end in
      match c with
      | Normal => (s, Normal)
      | Throw e => (reject p e s, Throw e)
      end
  end.

(** *** Draining the queue *)

(** Pops one item, if there is one, and starts it: the closure calls
    [request.promise()] and the task is in flight. *)
Definition processQueue (s : World) : World :=
  match PriorityQueue.pop (queue (self s)) with
  | (Some one, q) =>
      let s := on_self (set_queue q) s in
      let s := on_self (set_processing true) s in
      let cancel := cancel (self s) in
      let s := record (CallRequestPromise (request_of (fn one))) s in
      set_inflight (inflight s ++ [mkTask cancel (fn one) Awaiting]) s
  | (None, _) => s
  end.

(** The callback [ensureTimeout] hands to [setTimeout]. *)
Definition timerCallback (s : World) : World :=
  processQueue (on_self (set_timeout None) s).

(** The [catch] callback of [processQueue]. *)
Definition catchCallback (tok : CancelToken) (s : World) : World :=
  if negb (cancelled s tok)
  then on_self (fun w => set_progressErrors (S (_progressErrors w)) w) s
  else s.

(** The [finally] callback of [processQueue]. *)
Definition finallyCallback (tok : CancelToken) (s : World) : World :=
  let s :=
    if negb (cancelled s tok)
    then on_self (fun w => set_progressDone (S (_progressDone w)) w) s
    else s in
  let s := on_self (set_processing false) s in
  let s := record CallUpdateProgressLazy s in
  ensureTimeout s.

(** *** Lifecycle *)

Definition submit (s : World) (x : Submission) : World :=
  match x with
  | Single priority request handler => (enqueueRequest priority request handler s).2
  | Paged priority request handler => (enqueuePagedRequest priority request handler s).2
  end.

Definition fillQueue (s : World) : World :=
  foldl submit (record CallFillQueue s) fillItems.

Definition start (s : World) : World :=
  if _started (self s) then s
  else
    let s := on_self (set_started true) s in
    let s := ensureTimeout s in
    if queueFilled (self s) then s
    else fillQueue (on_self (set_queueFilled true) s).

Definition stop (s : World) : World :=
  if negb (_started (self s)) then s
  else discardTimeout (on_self (set_started false) s).

Definition resetProgress (s : World) : World * Completion :=
  if running s then (s, Throw (VString "cannot reset progress while running"))
  else
    let s := on_self (set_progressDone 0) s in
    let s := on_self (set_progressTotal 0) s in
    let s := on_self (set_progressErrors 0) s in
    let s := on_self (set_queueFilled false) s in
    let s := on_self (fun w => set_queue (PriorityQueue.clear (queue w)) w) s in
    let s := on_self (fun w => set_cancel (S (cancel w)) w) s in
    (record CallResetProgress s, Normal).

(** *** The transition system *)

Definition step (s : World) (ev : Event) : World :=
  match ev with
  | CallsEnqueueRequest priority request handler =>
      (enqueueRequest priority request handler s).2
  | CallsEnqueuePagedRequest priority request handler =>
      (enqueuePagedRequest priority request handler s).2
  | CallsStart => start s
  | CallsStop => stop s
  | CallsResetProgress => (resetProgress s).1
  | TimerFires h =>
      if bool_decide (h ∈ timers s)
      then timerCallback (set_timers (filter (fun h' => h' <> h) (timers s)) s)
      else s
  | RequestSettles i r =>
      match inflight s !! i with
      | Some (mkTask tok f Awaiting) =>
          let '(s, c) := settleFn tok f r s in
          set_inflight (<[i := mkTask tok f (Settled c)]> (inflight s)) s
      | _ => s
      end
  | CatchRuns i =>
      match inflight s !! i with
      | Some (mkTask tok f (Settled c)) =>
          let s := match c with
                   | Throw _ => catchCallback tok s
                   | Normal => s
                   end in
          set_inflight (<[i := mkTask tok f Caught]> (inflight s)) s
      | _ => s
      end
  | FinallyRuns i =>
      match inflight s !! i with
      | Some (mkTask tok f Caught) =>
          finallyCallback tok (set_inflight (delete i (inflight s)) s)
      | _ => s
      end
  end.

Definition run (s : World) (tr : list Event) : World := foldl step s tr.

(** *** Counting the calls of [enqueue] along a run *)

(** How many times [enqueue] is called while [ev] is performed in state
    [s], read off its call sites: [enqueueRequest] and
    [enqueuePagedRequest] call it once each; [start] calls [fillQueue],
    which makes one call per item of [fillItems], when the worker is
    neither started nor filled; [handlePagedResponse] calls it once, for
    the next page, when the token is current, the handler returns and the
    page has a successor.  Nothing else calls it. *)
Definition enqueue_calls (s : World) (ev : Event) : nat :=
  match ev with
  | CallsEnqueueRequest _ _ _ => 1
  | CallsEnqueuePagedRequest _ _ _ => 1
  | CallsStart =>
      if _started (self s) then 0
      else if queueFilled (self s) then 0
      else length fillItems
  | RequestSettles i (inl response) =>
      match inflight s !! i with
      | Some (mkTask tok (PagedFn _ _ _ handler) Awaiting) =>
          if cancelled s tok then 0
          else match handler response with
               | Throws _ => 0
               | Returns _ =>
                   if hasNextPage response
                   then match nextPage response with
                        | Some _ => 1
                        | None => 0
                        end
                   else 0
               end
      | _ => 0
      end
  | _ => 0
  end.

(** Whether [ev] is a call of [resetProgress] that does not throw. *)
Definition resets (s : World) (ev : Event) : bool :=
  match ev with
  | CallsResetProgress => negb (running s)
  | _ => false
  end.

(** The number of [enqueue] calls since the last successful reset, after
    the events [tr] performed from [s], when it was [n] before them. *)
Fixpoint enqueue_calls_since_reset (n : nat) (s : World) (tr : list Event) : nat :=
  match tr with
  | [] => n
  | ev :: rest =>
      enqueue_calls_since_reset
        (if resets s ev then 0 else n + enqueue_calls s ev) (step s ev) rest
  end.

(** ** Properties *)

(** *** What the building blocks leave alone *)

Lemma ensureTimeout_started s : _started (self (ensureTimeout s)) = _started (self s).
Proof. unfold ensureTimeout. by destruct (timeout (self s)). Qed.

Lemma ensureTimeout_armed s : armed (ensureTimeout s) = true.
Proof.
  unfold ensureTimeout, armed.
  by destruct (timeout (self s)) eqn:E; simpl; rewrite ?E.
Qed.

Lemma ensureTimeout_counters s : counters (ensureTimeout s) = counters s.
Proof. unfold ensureTimeout. by destruct (timeout (self s)). Qed.

Lemma enqueue_started priority f s :
  _started (self (enqueue priority f s)) = _started (self s).
Proof.
  unfold enqueue. simpl. destruct (_started (self s)) eqn:E; simpl; [|done].
  by rewrite ensureTimeout_started.
Qed.

Lemma enqueue_fillQueue_calls priority f s :
  count is_fillQueue (history (enqueue priority f s)) = count is_fillQueue (history s).
Proof.
  unfold enqueue, ensureTimeout. simpl.
  by destruct (_started (self s)), (timeout (self s)).
Qed.

Lemma submit_started s x : _started (self (submit s x)) = _started (self s).
Proof. destruct x; simpl; by rewrite enqueue_started. Qed.

Lemma submit_fillQueue_calls s x :
  count is_fillQueue (history (submit s x)) = count is_fillQueue (history s).
Proof. destruct x; simpl; by rewrite enqueue_fillQueue_calls. Qed.

Lemma submit_all_started l s : _started (self (foldl submit s l)) = _started (self s).
Proof.
  revert s. induction l as [|x l IH]; intros s; simpl; [done|].
  by rewrite IH, submit_started.
Qed.

Lemma submit_all_fillQueue_calls l s :
  count is_fillQueue (history (foldl submit s l)) = count is_fillQueue (history s).
Proof.
  revert s. induction l as [|x l IH]; intros s; simpl; [done|].
  by rewrite IH, submit_fillQueue_calls.
Qed.

Lemma start_started s : _started (self (start s)) = true.
Proof.
  unfold start. destruct (_started (self s)) eqn:E; [done|].
  destruct (queueFilled _); [by rewrite ensureTimeout_started|].
  unfold fillQueue. rewrite submit_all_started. simpl.
  by rewrite ensureTimeout_started.
Qed.

(** *** Lifecycle *)

(** C7.  [start] is idempotent.  On a worker that is not started and whose
    queue has not been filled (as after construction, or after a reset of
    a stopped worker), two calls of [start] in a row invoke [fillQueue]
    exactly once, and the second call changes nothing at all: neither the
    worker, nor the runtime, nor the record of calls. *)
Theorem start_twice_fills_once (s : World) :
  _started (self s) = false ->
  queueFilled (self s) = false ->
  count is_fillQueue (history (start (start s))) = S (count is_fillQueue (history s))
  /\ start (start s) = start s.
Proof.
  intros Hs Hq.
  assert (Hidem : start (start s) = start s).
  { unfold start at 1. by rewrite start_started. }
  split; [|done]. rewrite Hidem.
  unfold start. rewrite Hs.
  assert (queueFilled (self (ensureTimeout (on_self (set_started true) s))) = false) as ->.
  { unfold ensureTimeout. simpl. by destruct (timeout (self s)). }
  unfold fillQueue. rewrite submit_all_fillQueue_calls. simpl.
  unfold ensureTimeout. simpl. by destruct (timeout (self s)).
Qed.

(** In any state: [start] calls [fillQueue] once if the worker is neither
    started nor filled, and not at all otherwise. *)
Lemma start_fillQueue_calls s :
  count is_fillQueue (history (start s))
  = count is_fillQueue (history s)
    + (if _started (self s) || queueFilled (self s) then 0 else 1).
Proof.
  unfold start. destruct (_started (self s)) eqn:Hs; simpl; [lia|].
  assert (queueFilled (self (ensureTimeout (on_self (set_started true) s)))
          = queueFilled (self s)) as ->.
  { unfold ensureTimeout. simpl. by destruct (timeout (self s)). }
  assert (count is_fillQueue (history (ensureTimeout (on_self (set_started true) s)))
          = count is_fillQueue (history s)) as Hh.
  { unfold ensureTimeout. simpl. by destruct (timeout (self s)). }
  destruct (queueFilled (self s)); [lia|].
  unfold fillQueue. rewrite submit_all_fillQueue_calls. simpl. lia.
Qed.

(** In any state whatsoever a second [start] is a no-op. *)
Lemma start_idempotent s : start (start s) = start s.
Proof. unfold start at 1. by rewrite start_started. Qed.

(** C5.  [resetProgress] on a running worker throws the invalid-state
    error and leaves the whole state as it was (so the queue, the three
    counters, [queueFilled] and the epoch are unchanged); on a worker that
    is not running it returns normally with the queue empty, the three
    counters zero, [queueFilled] false and the epoch one higher. *)
Theorem resetProgress_guarded (s : World) :
  (running s = true ->
     resetProgress s = (s, Throw (VString "cannot reset progress while running")))
  /\ (running s = false ->
      exists s', resetProgress s = (s', Normal)
        /\ queue (self s') = []
        /\ counters s' = (0, 0, 0)
        /\ queueFilled (self s') = false
        /\ cancel (self s') = S (cancel (self s))).
Proof.
  unfold resetProgress. split; intros ->; [done|].
  eexists. split; [done|]. by simpl.
Qed.

(** *** Terminal outcomes and the counters *)

Lemma cancelled_stale s tok : tok <> cancel (self s) -> cancelled s tok = true.
Proof.
  intros H. unfold cancelled. apply negb_true_iff, Nat.eqb_neq. congruence.
Qed.

Lemma cancelled_current s : cancelled s (cancel (self s)) = false.
Proof. unfold cancelled. by rewrite Nat.eqb_refl. Qed.

Lemma settle_self p st s : self (settle p st s) = self s.
Proof. unfold settle. by repeat case_match. Qed.

Lemma settle_inflight p st s : inflight (settle p st s) = inflight s.
Proof. unfold settle. by repeat case_match. Qed.

Lemma settle_history p st s : history (settle p st s) = history s.
Proof. unfold settle. by repeat case_match. Qed.

Lemma settle_counters p st s : counters (settle p st s) = counters s.
Proof.
  unfold counters, progressDone, progressTotal, progressError.
  by rewrite settle_self.
Qed.

(** A stale task's closure at most rejects its caller's promise. *)
Lemma settleFn_stale_counters tok f r s :
  tok <> cancel (self s) -> counters (settleFn tok f r s).1 = counters s.
Proof.
  intros H. unfold settleFn, handlePagedResponse, reject.
  rewrite (cancelled_stale _ _ H).
  destruct f as [rq p h|pr rq p h], r as [resp|e]; simpl;
    by rewrite ?settle_counters.
Qed.

Lemma settleFn_cancel tok f r s :
  cancel (self (settleFn tok f r s).1) = cancel (self s).
Proof.
  assert (Hens : forall s, cancel (self (ensureTimeout s)) = cancel (self s)).
  { intros s1. unfold ensureTimeout. by destruct (timeout (self s1)). }
  unfold settleFn, handlePagedResponse, resolve, reject, enqueue.
  destruct f as [rq p h|pr rq p h], r as [resp|e]; simpl;
    repeat case_match; simplify_eq/=; by rewrite ?settle_self, ?Hens.
Qed.

Lemma settleFn_tasks tok f r s :
  inflight (settleFn tok f r s).1 = inflight s.
Proof.
  assert (Hens : forall s, inflight (ensureTimeout s) = inflight s).
  { intros s1. unfold ensureTimeout. by destruct (timeout (self s1)). }
  unfold settleFn, handlePagedResponse, resolve, reject, enqueue.
  destruct f as [rq p h|pr rq p h], r as [resp|e]; simpl;
    repeat case_match; simplify_eq/=; by rewrite ?settle_inflight, ?Hens.
Qed.

Lemma catchCallback_stale tok s : tok <> cancel (self s) -> catchCallback tok s = s.
Proof. intros H. unfold catchCallback. by rewrite (cancelled_stale _ _ H). Qed.

Lemma finallyCallback_stale_counters tok s :
  tok <> cancel (self s) -> counters (finallyCallback tok s) = counters s.
Proof.
  intros H. unfold finallyCallback.
  rewrite (cancelled_stale _ _ H), ensureTimeout_counters. done.
Qed.

(** The steps that let a task end keep it at its place, with its token,
    until [finally] removes it, and they do not move the epoch. *)
Lemma settles_keeps_token s i t r :
  inflight s !! i = Some t ->
  let s' := step s (RequestSettles i r) in
  cancel (self s') = cancel (self s)
  /\ exists t', inflight s' !! i = Some t' /\ token t' = token t
       /\ (phase t = Awaiting -> exists c, phase t' = Settled c).
Proof.
  intros Hi. pose proof (lookup_lt_Some _ _ _ Hi) as Hlt.
  destruct t as [tok f ph]. simpl. rewrite Hi.
  destruct ph; try (split; [done|]; eexists; split; [exact Hi|done]).
  pose proof (settleFn_cancel tok f r s) as Hc.
  pose proof (settleFn_tasks tok f r s) as Hinf.
  destruct (settleFn tok f r s) as [s' c]. simpl in *.
  split; [done|]. eexists. split.
  - apply list_lookup_insert_eq. by rewrite Hinf.
  - split; [done|]. by exists c.
Qed.

Lemma catch_keeps_token s i t :
  inflight s !! i = Some t ->
  let s' := step s (CatchRuns i) in
  cancel (self s') = cancel (self s)
  /\ exists t', inflight s' !! i = Some t' /\ token t' = token t
       /\ (forall c, phase t = Settled c -> phase t' = Caught).
Proof.
  intros Hi. pose proof (lookup_lt_Some _ _ _ Hi) as Hlt.
  destruct t as [tok f ph]. simpl. rewrite Hi.
  destruct ph as [|c|]; try (split; [done|]; eexists; split; [exact Hi|done]).
  assert (Hcatch : cancel (self (catchCallback tok s)) = cancel (self s)
                   /\ inflight (catchCallback tok s) = inflight s).
  { unfold catchCallback. by case_match. }
  destruct Hcatch as [Hc Hinf].
  destruct c as [|e]; simpl; (split; [done|]); eexists;
    (split; [apply list_lookup_insert_eq; by rewrite ?Hinf|done]).
Qed.

(** C4.  A task whose token differs from the current epoch changes none of
    the three progress counters when it ends: not when its request settles
    (with a response or with an error), not when the [catch] callback
    runs, and not when the [finally] callback runs; and so the three
    together, from the response to the [finally] callback, change none. *)
Theorem stale_outcome_changes_no_counter
    (s : World) (i : nat) (t : Task) (r : Response + JsVal) :
  inflight s !! i = Some t ->
  token t <> cancel (self s) ->
  counters (step s (RequestSettles i r)) = counters s
  /\ counters (step s (CatchRuns i)) = counters s
  /\ counters (step s (FinallyRuns i)) = counters s
  /\ counters (step (step (step s (RequestSettles i r)) (CatchRuns i))
                 (FinallyRuns i))
     = counters s.
Proof.
  assert (Hone : forall s i t r,
            inflight s !! i = Some t -> token t <> cancel (self s) ->
            counters (step s (RequestSettles i r)) = counters s
            /\ counters (step s (CatchRuns i)) = counters s
            /\ counters (step s (FinallyRuns i)) = counters s).
  { clear. intros s i [tok f ph] r Hi Ht. simpl in Ht.
    unfold step. rewrite Hi. repeat split.
    - destruct ph; try done.
      pose proof (settleFn_stale_counters tok f r s Ht) as Hc.
      by destruct (settleFn tok f r s) as [s' c].
    - destruct ph as [|[|e]|]; try done.
      by rewrite catchCallback_stale.
    - destruct ph; try done.
      by rewrite finallyCallback_stale_counters. }
  intros Hi Ht.
  destruct (Hone s i t r Hi Ht) as (H1 & H2 & H3).
  repeat split; try done.
  destruct (settles_keeps_token s i t r Hi) as (Hc1 & t1 & Hi1 & Ht1 & _).
  set (s1 := step s (RequestSettles i r)) in *.
  destruct (catch_keeps_token s1 i t1 Hi1) as (Hc2 & t2 & Hi2 & Ht2 & _).
  set (s2 := step s1 (CatchRuns i)) in *.
  assert (Hstale1 : token t1 <> cancel (self s1)) by congruence.
  assert (Hstale2 : token t2 <> cancel (self s2)) by congruence.
  destruct (Hone s1 i t1 r Hi1 Hstale1) as (_ & H2' & _).
  destruct (Hone s2 i t2 r Hi2 Hstale2) as (_ & _ & H3').
  fold s2 in H2'. congruence.
Qed.

(** C9.  When the promise of a task whose token is current has settled
    with [c], the [catch] callback adds one to the errors counter exactly
    when [c] is a rejection and leaves the done counter alone, and the
    [finally] callback then adds exactly one to the done counter in either
    case: a rejected task is counted in both. *)
Theorem current_outcome_counts_done
    (s : World) (i : nat) (tok : CancelToken) (f : Fn) (c : Completion) :
  inflight s !! i = Some (mkTask tok f (Settled c)) ->
  tok = cancel (self s) ->
  let s1 := step s (CatchRuns i) in
  let s2 := step s1 (FinallyRuns i) in
  counters s1 =
    (progressDone s, progressTotal s,
     progressError s + match c with Throw _ => 1 | Normal => 0 end)
  /\ counters s2 =
    (S (progressDone s), progressTotal s,
     progressError s + match c with Throw _ => 1 | Normal => 0 end).
Proof.
  intros Hi ->. pose proof (lookup_lt_Some _ _ _ Hi) as Hlt.
  cbn zeta. unfold step. rewrite Hi.
  assert (Hcatch : forall s', cancel (self s') = cancel (self s) ->
            counters (match c with
                      | Throw _ => catchCallback (cancel (self s)) s'
                      | Normal => s'
                      end)
            = (progressDone s', progressTotal s',
               progressError s' + match c with Throw _ => 1 | Normal => 0 end)).
  { intros s' Hs'. destruct c as [|e]; unfold counters, progressError.
    - by rewrite Nat.add_0_r.
    - unfold catchCallback. rewrite <- Hs', cancelled_current. simpl.
      unfold progressError. by rewrite Nat.add_1_r. }
  split.
  - apply (Hcatch s eq_refl).
  - set (s1 := match c with Throw _ => _ | Normal => s end).
    assert (Hc1 : cancel (self s1) = cancel (self s)).
    { subst s1. destruct c; [done|]. unfold catchCallback.
      by rewrite cancelled_current. }
    simpl. rewrite list_lookup_insert_eq.
    2: { subst s1. destruct c; [done|]. unfold catchCallback.
         by rewrite cancelled_current. }
    unfold finallyCallback. rewrite ensureTimeout_counters.
    unfold cancelled. simpl. rewrite Hc1, Nat.eqb_refl. simpl.
    specialize (Hcatch s eq_refl). fold s1 in Hcatch.
    unfold counters, progressDone, progressTotal, progressError in *. simpl.
    congruence.
Qed.

(** *** Runs *)

Lemma run_snoc s tr ev : run s (tr ++ [ev]) = step (run s tr) ev.
Proof. unfold run. by rewrite foldl_app. Qed.

(** A property of the new worker that every step preserves holds after
    every run. *)
Lemma run_invariant (P : World -> Prop) :
  P new_world ->
  (forall s ev, P s -> P (step s ev)) ->
  forall tr, P (run new_world tr).
Proof.
  intros H0 Hstep tr. induction tr as [|ev tr IH] using rev_ind; [done|].
  rewrite run_snoc. by apply Hstep.
Qed.

(** *** Counting tasks *)

Lemma count_app {A} (f : A -> bool) l1 l2 :
  count f (l1 ++ l2) = count f l1 + count f l2.
Proof. induction l1 as [|x l1 IH]; simpl; [done|]. rewrite IH. lia. Qed.

Lemma count_replace {A} (f : A -> bool) (l : list A) i x y :
  l !! i = Some x ->
  count f (<[i := y]> l) + (if f x then 1 else 0)
  = count f l + (if f y then 1 else 0).
Proof.
  revert i. induction l as [|z l IH]; intros [|i] H; simplify_eq/=; [lia|].
  specialize (IH i H). lia.
Qed.

Lemma count_delete {A} (f : A -> bool) (l : list A) i x :
  l !! i = Some x ->
  count f (delete i l) + (if f x then 1 else 0) = count f l.
Proof.
  revert i. induction l as [|z l IH]; intros [|i] H; simplify_eq/=; [lia|].
  specialize (IH i H). lia.
Qed.

Lemma count_none {A} (f : A -> bool) (l : list A) :
  Forall (fun x => f x = false) l -> count f l = 0.
Proof. induction 1 as [|x l Hx _ IH]; simpl; [done|]. by rewrite Hx, IH. Qed.

Lemma length_push x q : length (PriorityQueue.push x q) = S (length q).
Proof.
  induction q as [|y q IH]; simpl; [done|].
  destruct (priority x <? priority y)%Z; simpl; by rewrite ?IH.
Qed.

(** *** The ledger: queue, epoch, counters and tasks in flight *)

Lemma balanced_ledger s s' : ledger s' = ledger s -> balanced s -> balanced s'.
Proof.
  unfold ledger, counters, balanced, progressDone, progressTotal, progressError.
  intros [= Hq Hc Hd Ht He Hi]. by rewrite Hq, Hc, Hd, Ht, He, Hi.
Qed.

Lemma ensureTimeout_ledger s : ledger (ensureTimeout s) = ledger s.
Proof. unfold ensureTimeout. by destruct (timeout (self s)). Qed.

Lemma discardTimeout_ledger s : ledger (discardTimeout s) = ledger s.
Proof. unfold discardTimeout. by destruct (timeout (self s)). Qed.

Lemma settle_ledger p st s : ledger (settle p st s) = ledger s.
Proof. unfold settle. by repeat case_match. Qed.

Lemma enqueue_ledger priority f s :
  ledger (enqueue priority f s)
  = (PriorityQueue.push (mkItem priority f) (queue (self s)), cancel (self s),
     (progressDone s, S (progressTotal s), progressError s), inflight s).
Proof.
  unfold enqueue. cbn zeta. case_match; [rewrite ensureTimeout_ledger|]; done.
Qed.

Lemma balanced_enqueue priority f s : balanced s -> balanced (enqueue priority f s).
Proof.
  pose proof (enqueue_ledger priority f s) as [= Hq Hc Hd Ht He Hi].
  unfold balanced, progressDone, progressTotal, progressError in *.
  rewrite Hq, Hc, Hd, Ht, He, Hi, length_push. intros (H1 & H2 & H3).
  repeat split; [lia|done|done].
Qed.

Lemma balanced_submit s x : balanced s -> balanced (submit s x).
Proof.
  intros H. destruct x; simpl; apply balanced_enqueue;
    by apply (balanced_ledger s).
Qed.

Lemma balanced_submit_all l s : balanced s -> balanced (foldl submit s l).
Proof.
  revert s. induction l as [|x l IH]; intros s H; simpl; [done|].
  by apply IH, balanced_submit.
Qed.

Lemma balanced_start s : balanced s -> balanced (start s).
Proof.
  intros H. unfold start. case_match; [done|].
  assert (balanced (ensureTimeout (on_self (set_started true) s))) as H'.
  { apply (balanced_ledger s); [|done]. by rewrite ensureTimeout_ledger. }
  case_match; [done|]. unfold fillQueue. apply balanced_submit_all.
  revert H'. by apply balanced_ledger.
Qed.

Lemma balanced_stop s : balanced s -> balanced (stop s).
Proof.
  intros H. unfold stop. case_match; [done|].
  apply (balanced_ledger s); [|done]. by rewrite discardTimeout_ledger.
Qed.

Lemma count_live_stale c l :
  Forall (fun t => token t <= c) l ->
  count (is_live (S c)) l = 0 /\ count (live_caught (S c)) l = 0.
Proof.
  intros H. split; apply count_none; (eapply Forall_impl; [exact H|]);
    intros t Ht; simpl in Ht; unfold live_caught, is_live;
    (replace (Nat.eqb (token t) (S c)) with false; [done|]);
    symmetry; apply Nat.eqb_neq; lia.
Qed.

Lemma balanced_resetProgress s : balanced s -> balanced (resetProgress s).1.
Proof.
  intros (H1 & H2 & H3). unfold resetProgress. case_match; [done|].
  unfold balanced, progressDone, progressTotal, progressError. simpl.
  destruct (count_live_stale _ _ H3) as [-> ->]. repeat split; [lia|].
  eapply Forall_impl; [exact H3|]. simpl. lia.
Qed.

Lemma balanced_processQueue s : balanced s -> balanced (processQueue s).
Proof.
  intros H. unfold processQueue.
  destruct (queue (self s)) as [|one q] eqn:Hq; simpl; [done|].
  destruct H as (H1 & H2 & H3).
  unfold balanced, progressDone, progressTotal, progressError in *. simpl.
  rewrite !count_app. simpl. rewrite Hq in H1. simpl in H1.
  unfold live_caught in *. unfold is_live at 2 4. simpl.
  rewrite Nat.eqb_refl. simpl.
  repeat split; [lia|lia|]. apply Forall_app. split; [done|].
  by apply Forall_singleton.
Qed.

Lemma balanced_timerCallback s : balanced s -> balanced (timerCallback s).
Proof.
  intros H. unfold timerCallback. apply balanced_processQueue.
  by apply (balanced_ledger s).
Qed.

(** The closure of a task enqueues at most one continuation and touches
    nothing else in the ledger. *)
Lemma settleFn_ledger tok f r s :
  ledger (settleFn tok f r s).1 = ledger s
  \/ exists item,
      ledger (settleFn tok f r s).1
      = (PriorityQueue.push item (queue (self s)), cancel (self s),
         (progressDone s, S (progressTotal s), progressError s), inflight s).
Proof.
  unfold settleFn, handlePagedResponse, resolve, reject.
  destruct f as [rq p h|pr rq p h], r as [resp|e]; simpl;
    repeat case_match; simplify_eq/=;
    rewrite ?settle_ledger; try (left; done).
  right. eexists. by rewrite enqueue_ledger.
Qed.

Lemma balanced_settleFn tok f r s : balanced s -> balanced (settleFn tok f r s).1.
Proof.
  intros H. destruct (settleFn_ledger tok f r s) as [Hl|[item Hl]].
  - by apply (balanced_ledger s).
  - injection Hl as Hq Hc Hd Ht He Hi. destruct H as (H1 & H2 & H3).
    unfold balanced, progressDone, progressTotal, progressError in *.
    rewrite Hq, Hc, Hd, Ht, He, Hi, length_push.
    repeat split; [lia|done|done].
Qed.

(** How the two counts change when the task at [i] changes phase or
    leaves. *)
Lemma count_live_rephase c l i tok f ph ph' :
  l !! i = Some (mkTask tok f ph) ->
  count (is_live c) (<[i := mkTask tok f ph']> l) = count (is_live c) l.
Proof.
  intros H.
  pose proof (count_replace (is_live c) l i _ (mkTask tok f ph') H) as E.
  change (is_live c (mkTask tok f ph')) with (is_live c (mkTask tok f ph)) in E.
  lia.
Qed.

Lemma count_caught_rephase c l i tok f ph ph' :
  l !! i = Some (mkTask tok f ph) ->
  count (live_caught c) (<[i := mkTask tok f ph']> l)
    + (if Nat.eqb tok c && is_caught (mkTask tok f ph) then 1 else 0)
  = count (live_caught c) l
    + (if Nat.eqb tok c && is_caught (mkTask tok f ph') then 1 else 0).
Proof. intros H. exact (count_replace (live_caught c) l i _ _ H). Qed.

Lemma count_live_delete c l i tok f ph :
  l !! i = Some (mkTask tok f ph) ->
  count (is_live c) (delete i l) + (if Nat.eqb tok c then 1 else 0)
  = count (is_live c) l.
Proof. intros H. exact (count_delete (is_live c) l i _ H). Qed.

Lemma count_caught_delete c l i tok f ph :
  l !! i = Some (mkTask tok f ph) ->
  count (live_caught c) (delete i l)
    + (if Nat.eqb tok c && is_caught (mkTask tok f ph) then 1 else 0)
  = count (live_caught c) l.
Proof. intros H. exact (count_delete (live_caught c) l i _ H). Qed.

Lemma tokens_rephase c (l : list Task) i tok f ph ph' :
  l !! i = Some (mkTask tok f ph) ->
  Forall (fun t => token t <= c) l ->
  Forall (fun t => token t <= c) (<[i := mkTask tok f ph']> l).
Proof.
  intros Hi H. apply Forall_insert; [done|].
  by apply (Forall_lookup_1 _ _ _ _ H Hi).
Qed.

(** Moving a task from one phase to another, neither of them [Caught],
    keeps the balance. *)
Lemma balanced_rephase s i tok f ph ph' :
  inflight s !! i = Some (mkTask tok f ph) ->
  is_caught (mkTask tok f ph) = false ->
  is_caught (mkTask tok f ph') = false ->
  balanced s ->
  balanced (set_inflight (<[i := mkTask tok f ph']> (inflight s)) s).
Proof.
  intros Hi Hph Hph' (H1 & H2 & H3).
  unfold balanced, progressDone, progressTotal, progressError in *. simpl.
  rewrite (count_live_rephase _ _ _ _ _ _ ph' Hi).
  pose proof (count_caught_rephase (cancel (self s)) _ _ _ _ _ ph' Hi) as Hc.
  rewrite Hph, Hph', !andb_false_r in Hc.
  repeat split; [lia|lia|]. by apply (tokens_rephase _ _ _ _ _ ph).
Qed.

Lemma balanced_catch s i tok f c :
  inflight s !! i = Some (mkTask tok f (Settled c)) ->
  balanced s -> balanced (step s (CatchRuns i)).
Proof.
  intros Hi (H1 & H2 & H3). simpl. rewrite Hi.
  pose proof (count_live_rephase (cancel (self s)) _ _ _ _ _ Caught Hi) as Hl.
  pose proof (count_caught_rephase (cancel (self s)) _ _ _ _ _ Caught Hi) as Hc.
  pose proof (tokens_rephase _ _ _ _ _ _ Caught Hi H3) as Hall.
  simpl in Hc. rewrite andb_false_r, andb_true_r in Hc.
  unfold balanced, progressDone, progressTotal, progressError in *.
  destruct c as [|e]; simpl.
  - rewrite Hl. repeat split; [lia| |done].
    destruct (Nat.eqb tok (cancel (self s))); lia.
  - unfold catchCallback, cancelled.
    rewrite (Nat.eqb_sym (cancel (self s)) tok).
    destruct (Nat.eqb tok (cancel (self s))); simpl; rewrite Hl;
      repeat split; try lia; done.
Qed.

Lemma balanced_finally s i tok f :
  inflight s !! i = Some (mkTask tok f Caught) ->
  balanced s -> balanced (step s (FinallyRuns i)).
Proof.
  intros Hi (H1 & H2 & H3). simpl. rewrite Hi.
  pose proof (count_live_delete (cancel (self s)) _ _ _ _ _ Hi) as Hl.
  pose proof (count_caught_delete (cancel (self s)) _ _ _ _ _ Hi) as Hc.
  simpl in Hc. rewrite andb_true_r in Hc.
  apply (balanced_ledger
           (on_self (fun w =>
              if negb (cancelled s tok)
              then set_progressDone (S (_progressDone w)) w else w)
              (set_inflight (delete i (inflight s)) s))).
  { unfold finallyCallback. rewrite ensureTimeout_ledger.
    unfold ledger, counters, progressDone, progressTotal, progressError, cancelled.
    simpl. by destruct (Nat.eqb (cancel (self s)) tok). }
  unfold balanced, progressDone, progressTotal, progressError, cancelled in *.
  rewrite (Nat.eqb_sym (cancel (self s)) tok).
  assert (Hall : Forall (fun t => token t <= cancel (self s)) (delete i (inflight s))).
  { by apply Forall_delete. }
  destruct (Nat.eqb tok (cancel (self s))); simpl in *;
    repeat split; try lia; done.
Qed.

Lemma balanced_step s ev : balanced s -> balanced (step s ev).
Proof.
  intros H. destruct ev as [pr rq h|pr rq h| | | |hd|i r|i|i].
  - apply balanced_enqueue. by apply (balanced_ledger s).
  - apply balanced_enqueue. by apply (balanced_ledger s).
  - by apply balanced_start.
  - by apply balanced_stop.
  - by apply balanced_resetProgress.
  - simpl. case_match; [|done]. apply balanced_timerCallback.
    by apply (balanced_ledger s).
  - simpl. destruct (inflight s !! i) as [[tok f [| |]]|] eqn:Hi; try done.
    pose proof (balanced_settleFn tok f r s H) as H'.
    pose proof (settleFn_tasks tok f r s) as Hinf.
    destruct (settleFn tok f r s) as [s' c]. simpl in *.
    apply (balanced_rephase s' i tok f Awaiting); try done. by rewrite Hinf.
  - destruct (inflight s !! i) as [[tok f [|c|]]|] eqn:Hi;
      try (simpl; by rewrite Hi).
    by apply (balanced_catch s i tok f c).
  - destruct (inflight s !! i) as [[tok f [|c|]]|] eqn:Hi;
      try (simpl; by rewrite Hi).
    by apply (balanced_finally s i tok f).
Qed.

(** *** The counters after any run *)

Lemma balanced_run tr : balanced (run new_world tr).
Proof.
  apply run_invariant; [|apply balanced_step].
  unfold balanced. cbn. repeat split; [lia|constructor].
Qed.

(** C1, as the code has it.  After every run of calls and callbacks the
    done counter and the errors counter are each at most the total
    counter.  (Their sum is not: a task that fails is counted in both.) *)
Theorem progress_counters_bounded (tr : list Event) :
  let s := run new_world tr in
  progressDone s <= progressTotal s /\ progressError s <= progressTotal s.
Proof.
  destruct (balanced_run tr) as (H1 & H2 & _). cbn zeta.
  assert (count (live_caught (cancel (self (run new_world tr)))) (inflight (run new_world tr))
          <= count (is_live (cancel (self (run new_world tr)))) (inflight (run new_world tr))) as Hle.
  { generalize (inflight (run new_world tr)), (cancel (self (run new_world tr))).
    intros l c. induction l as [|t l IH]; simpl; [done|].
    unfold live_caught at 1. destruct (is_live c t), (is_caught t); simpl; lia. }
  lia.
Qed.

(** *** The total counter and the enqueue calls *)

Lemma counted_ensureTimeout s : counted s -> counted (ensureTimeout s).
Proof. unfold counted, ensureTimeout. by destruct (timeout (self s)). Qed.

Lemma counted_discardTimeout s : counted s -> counted (discardTimeout s).
Proof. unfold counted, discardTimeout. by destruct (timeout (self s)). Qed.

Lemma counted_settle p st s : counted s -> counted (settle p st s).
Proof. unfold counted, progressTotal. by rewrite settle_self, settle_history. Qed.

Lemma counted_enqueue priority f s : counted s -> counted (enqueue priority f s).
Proof.
  intros H. unfold enqueue. cbn zeta.
  assert (forall s', progressTotal s' = S (progressTotal s) ->
            history s' = CallUpdateProgressLazy :: CallEnqueue :: history s ->
            counted s') as Hc.
  { intros s' Ht Hh. unfold counted. rewrite Ht, Hh. simpl. by f_equal. }
  case_match; [apply counted_ensureTimeout|]; by apply Hc.
Qed.

Lemma counted_submit s x : counted s -> counted (submit s x).
Proof. intros H. destruct x; simpl; by apply counted_enqueue. Qed.

Lemma counted_submit_all l s : counted s -> counted (foldl submit s l).
Proof.
  revert s. induction l as [|x l IH]; intros s H; simpl; [done|].
  by apply IH, counted_submit.
Qed.

Lemma counted_settleFn tok f r s : counted s -> counted (settleFn tok f r s).1.
Proof.
  intros H. unfold settleFn, handlePagedResponse, resolve, reject.
  destruct f as [rq p h|pr rq p h], r as [resp|e]; simpl;
    repeat case_match; simplify_eq/=;
    repeat first [apply counted_settle | apply counted_enqueue]; done.
Qed.

Lemma counted_step s ev : counted s -> counted (step s ev).
Proof.
  intros H. destruct ev as [pr rq h|pr rq h| | | |hd|i r|i|i]; simpl.
  - by apply counted_enqueue.
  - by apply counted_enqueue.
  - unfold start. repeat case_match; try done.
    + by apply counted_ensureTimeout.
    + unfold fillQueue. apply counted_submit_all.
      by apply (counted_ensureTimeout (on_self (set_started true) s)).
  - unfold stop. case_match; [done|]. by apply counted_discardTimeout.
  - unfold resetProgress. by case_match.
  - case_match; [|done]. unfold timerCallback, processQueue. simpl.
    by destruct (queue (self s)).
  - destruct (inflight s !! i) as [[tok f [| |]]|] eqn:Hi; try done.
    pose proof (counted_settleFn tok f r s H) as H'.
    by destruct (settleFn tok f r s) as [s' c].
  - destruct (inflight s !! i) as [[tok f [|[|e]|]]|] eqn:Hi; try done.
    unfold catchCallback. by case_match.
  - destruct (inflight s !! i) as [[tok f [|c|]]|] eqn:Hi; try done.
    unfold finallyCallback. apply counted_ensureTimeout. by case_match.
Qed.

(** The total counter agrees with the record of calls: it is the number
    of recorded [enqueue] calls since the last recorded reset. *)
Lemma progressTotal_matches_record (tr : list Event) :
  progressTotal (run new_world tr)
  = enqueues_since_reset (history (run new_world tr)).
Proof. apply (run_invariant counted); [done|apply counted_step]. Qed.

(** *** One [fillQueue] per lifecycle segment *)

Lemma filled_once_ensureTimeout s : filled_once s -> filled_once (ensureTimeout s).
Proof. unfold filled_once, ensureTimeout. by destruct (timeout (self s)). Qed.

Lemma filled_once_settle p st s : filled_once s -> filled_once (settle p st s).
Proof. unfold filled_once. by rewrite settle_self, settle_history. Qed.

Lemma filled_once_enqueue priority f s :
  filled_once s -> filled_once (enqueue priority f s).
Proof.
  intros H. unfold enqueue. cbn zeta.
  case_match; [apply filled_once_ensureTimeout|]; done.
Qed.

Lemma filled_once_submit_all l s : filled_once s -> filled_once (foldl submit s l).
Proof.
  revert s. induction l as [|x l IH]; intros s H; simpl; [done|].
  apply IH. destruct x; by apply filled_once_enqueue.
Qed.

Lemma filled_once_step s ev : filled_once s -> filled_once (step s ev).
Proof.
  intros H. destruct ev as [pr rq h|pr rq h| | | |hd|i r|i|i]; simpl.
  - by apply filled_once_enqueue.
  - by apply filled_once_enqueue.
  - unfold start. case_match; [done|].
    pose proof (filled_once_ensureTimeout (on_self (set_started true) s) H) as H'.
    case_match eqn:E; [done|]. unfold fillQueue. apply filled_once_submit_all.
    unfold filled_once in *. simpl. rewrite E in H'. by rewrite H'.
  - unfold stop. case_match; [done|]. unfold discardTimeout. by case_match.
  - unfold resetProgress. by case_match.
  - case_match; [|done]. unfold timerCallback, processQueue. simpl.
    by destruct (queue (self s)).
  - destruct (inflight s !! i) as [[tok f [| |]]|] eqn:Hi; try done.
    assert (filled_once (settleFn tok f r s).1) as H'.
    { unfold settleFn, handlePagedResponse, resolve, reject.
      destruct f as [rq p h|pr rq p h], r as [resp|e]; simpl;
        repeat case_match; simplify_eq/=;
        repeat first [apply filled_once_enqueue | apply filled_once_settle]; done. }
    by destruct (settleFn tok f r s) as [s' c].
  - destruct (inflight s !! i) as [[tok f [|[|e]|]]|] eqn:Hi; try done.
    unfold catchCallback. by case_match.
  - destruct (inflight s !! i) as [[tok f [|c|]]|] eqn:Hi; try done.
    unfold finallyCallback. apply filled_once_ensureTimeout. by case_match.
Qed.

(** After every run, [fillQueue] has been called at most once since the
    last reset: once if [queueFilled] is set, not at all otherwise. *)
Lemma fillQueue_once_per_segment tr :
  fills_since_reset (history (run new_world tr))
  = if queueFilled (self (run new_world tr)) then 1 else 0.
Proof. apply (run_invariant filled_once); [done|apply filled_once_step]. Qed.

(** *** The pacer *)

Lemma paced_armed s : armed s = true -> paced s.
Proof. by intros H _ _ _. Qed.

Lemma paced_stopped s : _started (self s) = false -> paced s.
Proof. intros H. unfold paced. by rewrite H. Qed.

Lemma paced_settle p st s : paced s -> paced (settle p st s).
Proof. unfold paced, armed. by rewrite settle_self. Qed.

Lemma paced_enqueue priority f s : paced (enqueue priority f s).
Proof.
  unfold enqueue. cbn zeta. case_match eqn:E.
  - apply paced_armed, ensureTimeout_armed.
  - by apply paced_stopped.
Qed.

Lemma paced_submit_all l s : paced s -> paced (foldl submit s l).
Proof.
  revert s. induction l as [|x l IH]; intros s H; simpl; [done|].
  apply IH. destruct x; apply paced_enqueue.
Qed.

Lemma paced_settleFn tok f r s : paced s -> paced (settleFn tok f r s).1.
Proof.
  intros H. unfold settleFn, handlePagedResponse, resolve, reject.
  destruct f as [rq p h|pr rq p h], r as [resp|e]; simpl;
    repeat case_match; simplify_eq/=;
    repeat first [apply paced_enqueue | apply paced_settle]; done.
Qed.

Lemma paced_step s ev : paced s -> paced (step s ev).
Proof.
  intros H. destruct ev as [pr rq h|pr rq h| | | |hd|i r|i|i]; simpl.
  - apply paced_enqueue.
  - apply paced_enqueue.
  - unfold start. repeat case_match; try done.
    + apply paced_armed, ensureTimeout_armed.
    + unfold fillQueue. apply paced_submit_all, paced_armed.
      apply (ensureTimeout_armed (on_self (set_started true) s)).
  - unfold stop. case_match; [done|]. apply paced_stopped.
    unfold discardTimeout. simpl. by case_match.
  - unfold resetProgress. case_match; [done|]. by intros _ ?.
  - case_match; [|done]. unfold timerCallback, processQueue. simpl.
    destruct (queue (self s)) eqn:E; simpl.
    + intros _ ?. simpl in *. congruence.
    + by intros _ _ ?.
  - destruct (inflight s !! i) as [[tok f [| |]]|] eqn:Hi; try done.
    pose proof (paced_settleFn tok f r s H) as H'.
    by destruct (settleFn tok f r s) as [s' c].
  - destruct (inflight s !! i) as [[tok f [|[|e]|]]|] eqn:Hi; try done.
    unfold catchCallback. by case_match.
  - destruct (inflight s !! i) as [[tok f [|c|]]|] eqn:Hi; try done.
    apply paced_armed. unfold finallyCallback. apply ensureTimeout_armed.
Qed.

(** C3, as the code has it.  After every run: if the worker is started,
    its queue is non-empty and no task is processing, then the pacer is
    armed.  (The converse is not claimed: [start] and the completion of a
    task arm the pacer whatever the queue holds.) *)
Theorem pacer_armed_when_work_waits (tr : list Event) :
  let s := run new_world tr in
  _started (self s) = true ->
  queue (self s) <> [] ->
  processing (self s) = false ->
  armed s = true.
Proof. apply (run_invariant paced); [done|apply paced_step]. Qed.

Lemma one_timer_step s ev : one_timer s -> one_timer (step s ev).
Proof.
  assert (Hens : forall s, one_timer s -> one_timer (ensureTimeout s)).
  { intros s' [H1 H2]. unfold ensureTimeout, one_timer in *.
    destruct (timeout (self s')) eqn:E; simpl; [by rewrite E|].
    rewrite H1. split; [done|]. apply Forall_singleton. lia. }
  assert (Hdis : forall s, one_timer s -> one_timer (discardTimeout s)).
  { intros s' [H1 H2]. unfold discardTimeout, one_timer in *.
    destruct (timeout (self s')) eqn:E; simpl; [|by rewrite E].
    rewrite H1. rewrite filter_cons_False by (intros ?; done). done. }
  assert (Hset : forall p st s, one_timer s -> one_timer (settle p st s)).
  { intros p st s' H. unfold settle. by repeat case_match. }
  assert (Henq : forall pr f s, one_timer s -> one_timer (enqueue pr f s)).
  { intros pr f s' H. unfold enqueue. cbn zeta. case_match; [apply Hens|]; done. }
  assert (Hall : forall l s, one_timer s -> one_timer (foldl submit s l)).
  { intros l. induction l as [|x l IH]; intros s' H; simpl; [done|].
    apply IH. destruct x; by apply Henq. }
  intros H. destruct ev as [pr rq h|pr rq h| | | |hd|i r|i|i]; simpl.
  - by apply Henq.
  - by apply Henq.
  - unfold start. repeat case_match; try done.
    + by apply Hens.
    + unfold fillQueue. apply Hall.
      by apply (Hens (on_self (set_started true) s)).
  - unfold stop. case_match; [done|]. by apply Hdis.
  - unfold resetProgress. by case_match.
  - case_bool_decide as Hin; [|done]. destruct H as [H1 H2].
    unfold timerCallback, processQueue, one_timer. simpl.
    destruct (timeout (self s)) eqn:E; rewrite H1 in Hin.
    + apply list_elem_of_singleton in Hin. subst hd. rewrite H1.
      rewrite filter_cons_False by (intros ?; done).
      by destruct (queue (self s)).
    + by apply elem_of_nil in Hin.
  - destruct (inflight s !! i) as [[tok f [| |]]|] eqn:Hi; try done.
    assert (one_timer (settleFn tok f r s).1) as H'.
    { unfold settleFn, handlePagedResponse, resolve, reject.
      destruct f as [rq p h|pr rq p h], r as [resp|e]; simpl;
        repeat case_match; simplify_eq/=;
        repeat first [apply Henq | apply Hset]; done. }
    by destruct (settleFn tok f r s) as [s' c].
  - destruct (inflight s !! i) as [[tok f [|[|e]|]]|] eqn:Hi; try done.
    unfold catchCallback. by case_match.
  - destruct (inflight s !! i) as [[tok f [|c|]]|] eqn:Hi; try done.
    unfold finallyCallback. apply Hens. by case_match.
Qed.

(** After every run at most one window timer is pending for the worker:
    the one whose handle it keeps. *)
Lemma one_timer_run tr : one_timer (run new_world tr).
Proof.
  apply run_invariant; [|apply one_timer_step]. split; [done|constructor].
Qed.

(** [stop] on a started worker leaves the pacer disarmed and no timer
    pending. *)
Lemma stop_disarms tr :
  let s := run new_world tr in
  _started (self s) = true ->
  armed (stop s) = false /\ timers (stop s) = [] /\ _started (self (stop s)) = false.
Proof.
  cbn zeta. intros Hs. destruct (one_timer_run tr) as [Ht _].
  unfold stop, discardTimeout, armed. rewrite Hs. simpl.
  destruct (timeout (self (run new_world tr))) eqn:E; simpl; [|by rewrite E].
  rewrite Ht. by rewrite filter_cons_False by (intros ?; done).
Qed.

(** A firing of the pacer starts at most one task, and no other step
    starts any. *)
Lemma step_starts_at_most_one s ev :
  length (inflight (step s ev))
  <= length (inflight s) + match ev with TimerFires _ => 1 | _ => 0 end.
Proof.
  assert (Hens : forall s, inflight (ensureTimeout s) = inflight s).
  { intros s'. by injection (ensureTimeout_ledger s'). }
  assert (Henq : forall pr f s, inflight (enqueue pr f s) = inflight s).
  { intros pr f s'. by injection (enqueue_ledger pr f s'). }
  assert (Hall : forall l s, inflight (foldl submit s l) = inflight s).
  { intros l. induction l as [|x l IH]; intros s'; simpl; [done|].
    rewrite IH. destruct x; simpl; by rewrite Henq. }
  destruct ev as [pr rq h|pr rq h| | | |hd|i r|i|i]; simpl.
  - rewrite Henq. simpl. lia.
  - rewrite Henq. simpl. lia.
  - unfold start. repeat case_match; try lia.
    + rewrite Hens. simpl. lia.
    + unfold fillQueue. rewrite Hall. simpl.
      rewrite (Hens (on_self (set_started true) s)). simpl. lia.
  - unfold stop. case_match; [lia|]. unfold discardTimeout.
    case_match; simpl; lia.
  - unfold resetProgress. case_match; simpl; lia.
  - case_match; [|lia]. unfold timerCallback, processQueue. simpl.
    destruct (queue (self s)); simpl; rewrite ?length_app; simpl; lia.
  - destruct (inflight s !! i) as [[tok f [| |]]|] eqn:Hi; try lia.
    pose proof (settleFn_tasks tok f r s) as Hinf.
    destruct (settleFn tok f r s) as [s' c]. simpl in *.
    rewrite length_insert, Hinf. lia.
  - destruct (inflight s !! i) as [[tok f [|[|e]|]]|] eqn:Hi; try lia;
      simpl; rewrite length_insert; [lia|].
    unfold catchCallback. case_match; simpl; lia.
  - destruct (inflight s !! i) as [[tok f [|c|]]|] eqn:Hi; try lia.
    unfold finallyCallback. rewrite Hens. simpl.
    case_match; simpl; rewrite length_delete by eauto; lia.
Qed.

(** *** Who holds which promise *)

Lemma push_perm x q : PriorityQueue.push x q ≡ₚ x :: q.
Proof.
  induction q as [|y q IH]; simpl; [done|].
  destruct (priority x <? priority y)%Z; [done|].
  rewrite IH. apply Permutation_swap.
Qed.

Lemma awaiting_promises_app l1 l2 :
  awaiting_promises (l1 ++ l2) = awaiting_promises l1 ++ awaiting_promises l2.
Proof. unfold awaiting_promises. apply flat_map_app. Qed.

(** A task that stops awaiting gives up its promise. *)
Lemma awaiting_promises_release l i tok f ph :
  l !! i = Some (mkTask tok f Awaiting) ->
  is_awaiting (mkTask tok f ph) = false ->
  awaiting_promises l
  ≡ₚ promise_of f :: awaiting_promises (<[i := mkTask tok f ph]> l).
Proof.
  intros Hi Hph. revert i Hi. unfold awaiting_promises.
  induction l as [|t l IH]; intros [|i] Hi; try done.
  - injection Hi as ->. simpl. by rewrite Hph.
  - simpl in *. rewrite (IH i Hi). by rewrite Permutation_middle.
Qed.

Lemma awaiting_promises_rephase (l : list Task) i t t' :
  l !! i = Some t ->
  is_awaiting t = false ->
  is_awaiting t' = false ->
  awaiting_promises (<[i := t']> l) = awaiting_promises l.
Proof.
  intros Hi Ht Ht'. revert i Hi. unfold awaiting_promises.
  induction l as [|u l IH]; intros [|i] Hi; try done.
  - injection Hi as ->. simpl. by rewrite Ht, Ht'.
  - simpl in *. by rewrite (IH i Hi).
Qed.

Lemma awaiting_promises_delete (l : list Task) i t :
  l !! i = Some t ->
  is_awaiting t = false ->
  awaiting_promises (delete i l) = awaiting_promises l.
Proof.
  intros Hi Ht. revert i Hi. unfold awaiting_promises.
  induction l as [|u l IH]; intros [|i] Hi; try done.
  - injection Hi as ->. simpl. by rewrite Ht.
  - simpl in *. by rewrite (IH i Hi).
Qed.

Lemma custody_vault s s' : vault s' = vault s -> custody s -> custody s'.
Proof.
  unfold vault, custody, held_promises.
  intros [= Hq Hi Hp]. by rewrite Hq, Hi, Hp.
Qed.

Lemma ensureTimeout_vault s : vault (ensureTimeout s) = vault s.
Proof. unfold ensureTimeout. by destruct (timeout (self s)). Qed.

Lemma discardTimeout_vault s : vault (discardTimeout s) = vault s.
Proof. unfold discardTimeout. by destruct (timeout (self s)). Qed.

Lemma enqueue_vault priority f s :
  vault (enqueue priority f s)
  = (PriorityQueue.push (mkItem priority f) (queue (self s)), inflight s, promises s).
Proof.
  unfold enqueue. cbn zeta. case_match; [rewrite ensureTimeout_vault|]; done.
Qed.

(** A held promise has been allocated. *)
Lemma custody_allocated s p :
  custody s -> p ∈ held_promises s -> p < length (promises s).
Proof. intros [_ H] Hp. eapply lookup_lt_Some. by apply H. Qed.

(** Enqueueing a closure for a promise made just now. *)
Lemma custody_enqueue_new priority (mk : PromiseId -> Fn) s :
  (forall p, promise_of (mk p) = p) ->
  custody s ->
  custody (enqueue priority (mk (length (promises s))) (newPromise s).2).
Proof.
  intros Hmk H. pose proof H as [Hnd Hpend].
  set (p := length (promises s)).
  assert (Hfresh : p ∉ held_promises s).
  { intros Hin. pose proof (custody_allocated s p H Hin). lia. }
  change (newPromise s).2 with (set_promises (promises s ++ [Pending]) s).
  set (s1 := set_promises (promises s ++ [Pending]) s).
  pose proof (enqueue_vault priority (mk p) s1) as [= Hq Hi Hp].
  unfold custody, held_promises. rewrite Hq, Hi, Hp. subst s1. simpl.
  assert (Hperm : map (fun x => promise_of (fn x))
                    (PriorityQueue.push (mkItem priority (mk p)) (queue (self s)))
                  ++ awaiting_promises (inflight s)
                  ≡ₚ p :: held_promises s).
  { rewrite push_perm. simpl. by rewrite Hmk. }
  split.
  - rewrite Hperm. by apply NoDup_cons.
  - intros q Hq'. rewrite Hperm in Hq'. apply elem_of_cons in Hq' as [->|Hq'].
    + by rewrite lookup_app_r, Nat.sub_diag.
    + rewrite lookup_app_l; [by apply Hpend|].
      by apply (custody_allocated s).
Qed.

Lemma custody_submit_all l s : custody s -> custody (foldl submit s l).
Proof.
  revert s. induction l as [|x l IH]; intros s H; simpl; [done|].
  apply IH. destruct x as [pr rq h|pr rq h]; simpl.
  - by apply (custody_enqueue_new pr (fun p => RequestFn rq p h)).
  - by apply (custody_enqueue_new pr (fun p => PagedFn pr rq p h)).
Qed.

Lemma custody_start s : custody s -> custody (start s).
Proof.
  intros H. unfold start. case_match; [done|].
  assert (custody (ensureTimeout (on_self (set_started true) s))) as H'.
  { apply (custody_vault s); [|done]. by rewrite ensureTimeout_vault. }
  case_match; [done|]. unfold fillQueue. apply custody_submit_all.
  revert H'. by apply custody_vault.
Qed.

Lemma custody_resetProgress s : custody s -> custody (resetProgress s).1.
Proof.
  intros [Hnd Hpend]. unfold resetProgress. case_match; [done|].
  unfold custody, held_promises in *. simpl.
  apply NoDup_app in Hnd as (_ & _ & Hnd). split; [done|].
  intros p Hp. apply Hpend, elem_of_app. by right.
Qed.

Lemma custody_processQueue s : custody s -> custody (processQueue s).
Proof.
  intros H. unfold processQueue.
  destruct (queue (self s)) as [|one q] eqn:Hq; simpl; [done|].
  destruct H as [Hnd Hpend].
  unfold custody, held_promises in *. simpl. rewrite Hq in Hnd, Hpend.
  rewrite awaiting_promises_app. simpl in *.
  assert (Hperm : map (fun x => promise_of (fn x)) q
                  ++ awaiting_promises (inflight s) ++ [promise_of (fn one)]
                  ≡ₚ promise_of (fn one)
                     :: map (fun x => promise_of (fn x)) q
                     ++ awaiting_promises (inflight s)).
  { by rewrite app_assoc, <- Permutation_cons_append. }
  split.
  - by rewrite Hperm.
  - intros p Hp. apply Hpend. by rewrite <- Hperm.
Qed.

Lemma settle_record p st c s :
  promises (settle p st (record c s)) = promises (settle p st s).
Proof. unfold settle. simpl. by repeat case_match. Qed.

Lemma settle_other p q st s :
  q <> p -> promises (settle p st s) !! q = promises s !! q.
Proof.
  intros H. unfold settle. repeat case_match; try done. simpl.
  by rewrite list_lookup_insert_ne.
Qed.

Lemma settle_pending p st s :
  promises s !! p = Some Pending -> promises (settle p st s) !! p = Some st.
Proof.
  intros H. unfold settle. rewrite H. simpl.
  apply list_lookup_insert_eq. by eapply lookup_lt_Some.
Qed.

(** What the closure of a task does to the queue and the promises: it
    settles its own promise, or does nothing, or enqueues one
    continuation that takes its promise over. *)
Lemma settleFn_vault tok f r s :
  let s' := (settleFn tok f r s).1 in
  (exists st, vault s' = (queue (self s), inflight s, promises (settle (promise_of f) st s)))
  \/ vault s' = vault s
  \/ (exists item, promise_of (fn item) = promise_of f
        /\ vault s' = (PriorityQueue.push item (queue (self s)), inflight s, promises s)).
Proof.
  assert (Hsv : forall p st s, vault (settle p st s)
                  = (queue (self s), inflight s, promises (settle p st s))).
  { intros p st s1. unfold vault. by rewrite settle_self, settle_inflight. }
  cbn zeta. unfold settleFn, handlePagedResponse, resolve, reject.
  destruct f as [rq p h|pr rq p h], r as [resp|e]; simpl;
    repeat case_match; simplify_eq/=;
    rewrite ?Hsv, ?settle_record; simpl;
    try (left; eexists; reflexivity); try (right; left; reflexivity).
  right. right. eexists. split; [|by rewrite enqueue_vault]. done.
Qed.

Lemma custody_settles s i tok f r :
  inflight s !! i = Some (mkTask tok f Awaiting) ->
  custody s -> custody (step s (RequestSettles i r)).
Proof.
  intros Hi [Hnd Hpend]. simpl. rewrite Hi.
  pose proof (settleFn_vault tok f r s) as Hv.
  pose proof (settleFn_tasks tok f r s) as Hinf.
  destruct (settleFn tok f r s) as [s' c]. simpl in Hv, Hinf.
  pose proof (awaiting_promises_release _ _ _ _ (Settled c) Hi eq_refl) as Hrel.
  set (A' := awaiting_promises (<[i := mkTask tok f (Settled c)]> (inflight s))) in *.
  set (Q := map (fun x => promise_of (fn x)) (queue (self s))).
  assert (Hperm : held_promises s ≡ₚ promise_of f :: Q ++ A').
  { unfold held_promises. fold Q. rewrite Hrel. by rewrite Permutation_middle. }
  rewrite Hperm in Hnd. apply NoDup_cons in Hnd as [Hnotin Hnd'].
  unfold custody, held_promises. simpl. rewrite Hinf. fold A'.
  destruct Hv as [[st Hv]|[Hv|(item & Hitem & Hv)]];
    injection Hv as Hq _ Hp; rewrite Hq, Hp.
  - fold Q. split; [done|]. intros q Hq'.
    rewrite settle_other by (intros ->; done).
    apply Hpend. rewrite Hperm. by right.
  - fold Q. split; [done|]. intros q Hq'.
    apply Hpend. rewrite Hperm. by right.
  - assert (Hperm' : map (fun x => promise_of (fn x))
                       (PriorityQueue.push item (queue (self s))) ++ A'
                     ≡ₚ promise_of f :: Q ++ A').
    { rewrite push_perm. simpl. by rewrite Hitem. }
    split.
    + rewrite Hperm'. by apply NoDup_cons.
    + intros q Hq'. apply Hpend. by rewrite Hperm, <- Hperm'.
Qed.

Lemma custody_step s ev : custody s -> custody (step s ev).
Proof.
  intros H. destruct ev as [pr rq h|pr rq h| | | |hd|i r|i|i].
  - by apply (custody_enqueue_new pr (fun p => RequestFn rq p h)).
  - by apply (custody_enqueue_new pr (fun p => PagedFn pr rq p h)).
  - by apply custody_start.
  - simpl. unfold stop. case_match; [done|].
    apply (custody_vault s); [|done]. by rewrite discardTimeout_vault.
  - by apply custody_resetProgress.
  - simpl. case_match; [|done]. apply custody_processQueue.
    by apply (custody_vault s).
  - destruct (inflight s !! i) as [[tok f [| |]]|] eqn:Hi;
      try (simpl; by rewrite Hi).
    by apply (custody_settles s i tok f).
  - simpl. destruct (inflight s !! i) as [[tok f [|c|]]|] eqn:Hi; try done.
    destruct H as [Hnd Hpend].
    assert (forall s1, vault s1 = vault s ->
              custody (set_inflight (<[i := mkTask tok f Caught]> (inflight s1)) s1)) as Hc.
    { intros s1 [= Hq Hin Hp]. unfold custody, held_promises. simpl.
      rewrite Hq, Hin, Hp.
      by rewrite (awaiting_promises_rephase _ _ _ (mkTask tok f Caught) Hi). }
    destruct c as [|e]; apply Hc; [done|].
    unfold catchCallback. by case_match.
  - simpl. destruct (inflight s !! i) as [[tok f [|c|]]|] eqn:Hi; try done.
    destruct H as [Hnd Hpend].
    apply (custody_vault (set_inflight (delete i (inflight s)) s)).
    { unfold finallyCallback. rewrite ensureTimeout_vault. by case_match. }
    unfold custody, held_promises. simpl.
    by rewrite (awaiting_promises_delete _ _ _ Hi).
Qed.

Lemma custody_run tr : custody (run new_world tr).
Proof.
  apply run_invariant; [|apply custody_step].
  split; [constructor|]. intros p Hp. by apply elem_of_nil in Hp.
Qed.

(** The promise of an awaiting task is pending. *)
Lemma awaiting_promise_pending tr i tok f :
  inflight (run new_world tr) !! i = Some (mkTask tok f Awaiting) ->
  promises (run new_world tr) !! promise_of f = Some Pending.
Proof.
  intros Hi. destruct (custody_run tr) as [_ Hpend]. apply Hpend.
  unfold held_promises. apply elem_of_app. right.
  rewrite (awaiting_promises_release _ _ _ _ Caught Hi eq_refl). by left.
Qed.

(** *** Promises returned to callers *)

(** C10.  A request enqueued with [enqueueRequest] whose response arrives
    when the epoch is no longer the task's token: the promise that
    [enqueueRequest] returned is rejected with ['cancelled'] (it was
    pending until then, so this settles it), and nothing is called, the
    handler in particular. *)
Theorem stale_request_rejects_cancelled
    (tr : list Event) (i : nat) (tok : CancelToken)
    (rq : Request) (p : PromiseId) (h : Handler) (resp : Response) :
  let s := run new_world tr in
  inflight s !! i = Some (mkTask tok (RequestFn rq p h) Awaiting) ->
  tok <> cancel (self s) ->
  let s' := step s (RequestSettles i (inl resp)) in
  promises s !! p = Some Pending
  /\ promises s' !! p = Some (Rejected (VString "cancelled"))
  /\ history s' = history s.
Proof.
  cbn zeta. intros Hi Htok.
  pose proof (awaiting_promise_pending tr i tok _ Hi) as Hp. simpl in Hp.
  split; [done|]. simpl. rewrite Hi. simpl.
  rewrite (cancelled_stale _ _ Htok). simpl. unfold reject.
  rewrite settle_history. split; [|done].
  by apply settle_pending.
Qed.

(** C8.  A paged request that is awaiting a page.
    If the page arrives saying that a further page exists while
    [nextPage()] yields nothing, the promise returned by
    [enqueuePagedRequest] is rejected (with ['cancelled'] for a stale
    task, else with what the handler threw, else with
    ['AWS is a liar']), and nothing is enqueued.
    If fetching the page fails with [e], that promise is rejected with
    [e] in the same step, and nothing is enqueued or called. *)
Theorem paged_request_rejects
    (tr : list Event) (i : nat) (tok : CancelToken) (pr : Z)
    (rq : Request) (p : PromiseId) (h : Handler) :
  let s := run new_world tr in
  inflight s !! i = Some (mkTask tok (PagedFn pr rq p h) Awaiting) ->
  (forall resp, hasNextPage resp = true -> nextPage resp = None ->
     let s' := step s (RequestSettles i (inl resp)) in
     promises s' !! p
     = Some (Rejected (if cancelled s tok then VString "cancelled"
                       else match h resp with
                            | Throws e => e
                            | Returns _ => VString "AWS is a liar"
                            end))
     /\ queue (self s') = queue (self s)
     /\ progressTotal s' = progressTotal s)
  /\ (forall e,
        let s' := step s (RequestSettles i (inr e)) in
        promises s' !! p = Some (Rejected e)
        /\ queue (self s') = queue (self s)
        /\ progressTotal s' = progressTotal s
        /\ history s' = history s).
Proof.
  cbn zeta. intros Hi.
  pose proof (awaiting_promise_pending tr i tok _ Hi) as Hp. simpl in Hp.
  split.
  - intros resp Hmore Hnone. simpl. rewrite Hi. simpl.
    unfold handlePagedResponse, reject. rewrite Hmore, Hnone.
    destruct (cancelled (run new_world tr) tok); [|destruct (h resp) as [v|e]];
      simpl; unfold progressTotal; simpl; rewrite settle_self;
      (split; [by apply settle_pending|done]).
  - intros e. simpl. rewrite Hi. simpl. unfold reject, progressTotal. simpl.
    rewrite settle_self, settle_history. split; [|done].
    by apply settle_pending.
Qed.

(** ** Further properties of the scheduler *)

(** *** The books *)

(** X1.  After every run, each task dispatched since the last reset is in
    exactly one place: done, still queued, or in flight with the current
    token.  So the done counter reaches the total exactly when nothing is
    queued and no task of the current epoch is in flight. *)
Theorem dispatched_work_accounted (tr : list Event) :
  let s := run new_world tr in
  progressTotal s
  = progressDone s + length (queue (self s))
    + count (is_live (cancel (self s))) (inflight s)
  /\ (progressDone s = progressTotal s
      <-> queue (self s) = []
          /\ count (is_live (cancel (self s))) (inflight s) = 0).
Proof.
  cbn zeta. destruct (balanced_run tr) as (H1 & _ & _). split; [done|].
  destruct (queue (self (run new_world tr))) as [|x q]; simpl in *.
  - split; [intros H; split; [done|lia]|intros [_ H]; lia].
  - split; [intros H; lia|intros [H _]; done].
Qed.

(** X2.  After every run, the errors counted are those of tasks that are
    done and of tasks of the current epoch whose [catch] callback has run
    and whose [finally] callback has not: with no such task, errors are at
    most done. *)
Theorem errors_within_done (tr : list Event) :
  let s := run new_world tr in
  progressError s
  <= progressDone s + count (live_caught (cancel (self s))) (inflight s)
  /\ (count is_caught (inflight s) = 0 -> progressError s <= progressDone s).
Proof.
  cbn zeta. destruct (balanced_run tr) as (_ & H2 & _). split; [done|].
  intros H0.
  assert (count (live_caught (cancel (self (run new_world tr))))
            (inflight (run new_world tr)) = 0) as Hz; [|lia].
  revert H0. generalize (inflight (run new_world tr)), (cancel (self (run new_world tr))).
  intros l c. induction l as [|t l IH]; simpl; [done|].
  unfold live_caught at 1. destruct (is_caught t), (is_live c t); simpl; lia.
Qed.

(** *** The epoch *)

Lemma cancel_step s ev : cancel (self s) <= cancel (self (step s ev)).
Proof.
  assert (Hens : forall s, cancel (self (ensureTimeout s)) = cancel (self s)).
  { intros s1. unfold ensureTimeout. by destruct (timeout (self s1)). }
  assert (Henq : forall pr f s, cancel (self (enqueue pr f s)) = cancel (self s)).
  { intros pr f s1. by injection (enqueue_ledger pr f s1). }
  assert (Hall : forall l s, cancel (self (foldl submit s l)) = cancel (self s)).
  { intros l. induction l as [|x l IH]; intros s1; simpl; [done|].
    rewrite IH. destruct x; simpl; by rewrite Henq. }
  destruct ev as [pr rq h|pr rq h| | | |hd|i r|i|i]; simpl.
  - by rewrite Henq.
  - by rewrite Henq.
  - unfold start. repeat case_match; try done.
    + by rewrite Hens.
    + unfold fillQueue. rewrite Hall. simpl.
      by rewrite (Hens (on_self (set_started true) s)).
  - unfold stop. case_match; [done|]. unfold discardTimeout. by case_match.
  - unfold resetProgress. case_match; simpl; lia.
  - case_match; [|done]. unfold timerCallback, processQueue. simpl.
    by destruct (queue (self s)).
  - destruct (inflight s !! i) as [[tok f [| |]]|] eqn:Hi; try done.
    pose proof (settleFn_cancel tok f r s) as Hc.
    destruct (settleFn tok f r s) as [s' c]. simpl in *. by rewrite Hc.
  - destruct (inflight s !! i) as [[tok f [|[|e]|]]|] eqn:Hi; try done.
    unfold catchCallback. by case_match.
  - destruct (inflight s !! i) as [[tok f [|c|]]|] eqn:Hi; try done.
    unfold finallyCallback. rewrite Hens. by case_match.
Qed.

(** X3.  The epoch never decreases, no task in flight holds a token above
    it, and a successful [resetProgress] leaves every task in flight with
    a token strictly below the new epoch: stale. *)
Theorem epoch_outgrows_tokens (tr : list Event) :
  let s := run new_world tr in
  Forall (fun t => token t <= cancel (self s)) (inflight s)
  /\ (forall ev, cancel (self s) <= cancel (self (step s ev)))
  /\ (running s = false ->
      Forall (fun t => token t < cancel (self (resetProgress s).1))
        (inflight (resetProgress s).1)).
Proof.
  cbn zeta. destruct (balanced_run tr) as (_ & _ & H3).
  split; [done|]. split; [intros ev; apply cancel_step|].
  intros Hrun. unfold resetProgress. rewrite Hrun. simpl.
  eapply Forall_impl; [exact H3|]. simpl. lia.
Qed.

(** *** The pacer *)

(** X4.  After every run at most one window timer is pending for the
    worker, namely the one whose handle it keeps in [timeout], and every
    handle handed out so far is below the next one. *)
Theorem single_pending_timer (tr : list Event) :
  let s := run new_world tr in
  timers s = match timeout (self s) with Some h => [h] | None => [] end
  /\ Forall (fun h => h < nextTimer s) (timers s).
Proof. apply one_timer_run. Qed.

(** *** Lifecycle *)

(** X6.  After every run, [fillQueue] has been called at most once since
    the last successful reset: once if [queueFilled] is set, never
    otherwise.  In particular [stop] followed by [start] does not seed the
    queue a second time. *)
Theorem fillQueue_at_most_once (tr : list Event) :
  let s := run new_world tr in
  fills_since_reset (history s) = (if queueFilled (self s) then 1 else 0)
  /\ fills_since_reset (history (start (stop s))) = fills_since_reset (history s)
     + (if queueFilled (self s) then 0 else 1).
Proof.
  cbn zeta. split; [apply fillQueue_once_per_segment|].
  pose proof (fillQueue_once_per_segment (tr ++ [CallsStop; CallsStart])) as H.
  pose proof (fillQueue_once_per_segment tr) as H0.
  unfold run in H. rewrite foldl_app in H. simpl in H.
  fold (run new_world tr) in H. rewrite H, H0.
  assert (queueFilled (self (start (stop (run new_world tr)))) = true) as ->.
  { generalize (run new_world tr). intros s.
    assert (Hens : forall s, queueFilled (self (ensureTimeout s)) = queueFilled (self s)).
    { intros s1. unfold ensureTimeout. by destruct (timeout (self s1)). }
    assert (Hall : forall l s, queueFilled (self (foldl submit s l)) = queueFilled (self s)).
    { intros l. induction l as [|x l IH]; intros s1; simpl; [done|].
      rewrite IH. destruct x; simpl; unfold enqueue, ensureTimeout; simpl;
        by destruct (_started (self s1)), (timeout (self s1)). }
    assert (Hstop : _started (self (stop s)) = false).
    { unfold stop. destruct (_started (self s)) eqn:E; simpl; [|done].
      unfold discardTimeout. simpl. by destruct (timeout (self s)). }
    unfold start. rewrite Hstop.
    set (s2 := ensureTimeout (on_self (set_started true) (stop s))).
    destruct (queueFilled (self s2)) eqn:E; [exact E|].
    unfold fillQueue. by rewrite Hall. }
  by destruct (queueFilled (self (run new_world tr))).
Qed.

Lemma stop_ledger s : ledger (stop s) = ledger s.
Proof.
  unfold stop. case_match; [done|]. by rewrite discardTimeout_ledger.
Qed.

(** X7.  [stop] discards nothing but the pacer: the queue, the epoch, the
    three counters and the tasks in flight are as before; after every run
    it leaves the worker stopped, the pacer disarmed and no timer pending;
    and a second [stop] changes nothing. *)
Theorem stop_only_disarms (tr : list Event) :
  let s := run new_world tr in
  ledger (stop s) = ledger s
  /\ _started (self (stop s)) = false
  /\ armed (stop s) = armed s && negb (_started (self s))
  /\ (timeout (self s) = None -> timers (stop s) = [])
  /\ (_started (self s) = true -> timers (stop s) = [])
  /\ stop (stop s) = stop s.
Proof.
  cbn zeta. destruct (one_timer_run tr) as [Ht _].
  generalize dependent (run new_world tr). intros s Ht.
  split; [apply stop_ledger|].
  assert (Hstop : _started (self (stop s)) = false).
  { unfold stop. destruct (_started (self s)) eqn:E; simpl; [|done].
    unfold discardTimeout. simpl. by destruct (timeout (self s)). }
  split; [done|]. split.
  { unfold stop, discardTimeout, armed.
    destruct (_started (self s)); simpl; [|by rewrite andb_true_r].
    destruct (timeout (self s)) eqn:E; simpl; [done|by rewrite E]. }
  split; [|split].
  - intros Hn. rewrite Hn in Ht. unfold stop, discardTimeout.
    destruct (_started (self s)); simpl; [|done]. by rewrite Hn.
  - intros Hs. unfold stop, discardTimeout. rewrite Hs. simpl.
    destruct (timeout (self s)) eqn:E; simpl; [|done].
    rewrite Ht. by rewrite filter_cons_False by (intros ?; done).
  - unfold stop at 1. by rewrite Hstop.
Qed.

Lemma enqueue_history_count priority f s :
  count is_enqueue (history (enqueue priority f s))
  = S (count is_enqueue (history s)).
Proof.
  unfold enqueue, ensureTimeout. simpl.
  by destruct (_started (self s)), (timeout (self s)).
Qed.

Lemma enqueue_counters priority f s :
  counters (enqueue priority f s)
  = (progressDone s, S (progressTotal s), progressError s).
Proof.
  pose proof (enqueue_ledger priority f s) as [= Hq Hc Hd Ht He Hi].
  unfold counters. by rewrite Hd, Ht, He.
Qed.

Lemma enqueue_queue priority f s :
  queue (self (enqueue priority f s))
  = PriorityQueue.push (mkItem priority f) (queue (self s)).
Proof. by pose proof (enqueue_ledger priority f s) as [= Hq Hc Hd Ht He Hi]. Qed.

(** What [fillQueue]'s submissions add up to. *)
Lemma submit_all_effects l s :
  let s' := foldl submit s l in
  counters s' = (progressDone s, progressTotal s + length l, progressError s)
  /\ length (queue (self s')) = length (queue (self s)) + length l
  /\ count is_enqueue (history s') = count is_enqueue (history s) + length l
  /\ cancel (self s') = cancel (self s)
  /\ processing (self s') = processing (self s)
  /\ inflight s' = inflight s.
Proof.
  assert (Hone : forall pr f s,
            let s' := enqueue pr f s in
            counters s' = (progressDone s, progressTotal s + 1, progressError s)
            /\ length (queue (self s')) = length (queue (self s)) + 1
            /\ count is_enqueue (history s') = count is_enqueue (history s) + 1
            /\ cancel (self s') = cancel (self s)
            /\ processing (self s') = processing (self s)
            /\ inflight s' = inflight s).
  { intros pr f s1. cbn zeta.
    pose proof (enqueue_ledger pr f s1) as [= Hq Hc Hd Ht He Hi].
    rewrite enqueue_counters, enqueue_history_count, Hq, Hc, Hi, length_push.
    rewrite !Nat.add_1_r. repeat split; try done.
    unfold enqueue, ensureTimeout. simpl.
    by destruct (_started (self s1)), (timeout (self s1)). }
  cbn zeta. revert s. induction l as [|x l IH]; intros s; simpl.
  - unfold counters. rewrite !Nat.add_0_r. done.
  - destruct (IH (submit s x)) as (H1 & H2 & H3 & H4 & H5 & H6).
    rewrite H1, H2, H3, H4, H5, H6.
    assert (let s' := submit s x in
            counters s' = (progressDone s, progressTotal s + 1, progressError s)
            /\ length (queue (self s')) = length (queue (self s)) + 1
            /\ count is_enqueue (history s') = count is_enqueue (history s) + 1
            /\ cancel (self s') = cancel (self s)
            /\ processing (self s') = processing (self s)
            /\ inflight s' = inflight s) as (G1 & G2 & G3 & G4 & G5 & G6).
    { destruct x as [pr rq h|pr rq h].
      - exact (Hone pr (RequestFn rq (length (promises s)) h)
                 (set_promises (promises s ++ [Pending]) s)).
      - exact (Hone pr (PagedFn pr rq (length (promises s)) h)
                 (set_promises (promises s ++ [Pending]) s)). }
    injection G1 as Gd Gt Ge.
    unfold progressDone, progressTotal, progressError in *.
    rewrite Gd, Gt, Ge, G2, G3, G4, G5, G6.
    repeat split; try lia.
    replace (_progressTotal (self s) + 1 + length l)
      with (_progressTotal (self s) + S (length l)) by lia.
    done.
Qed.

Lemma settleFn_enqueues tok f r s :
  self (settleFn tok f r s).1 = self s
  \/ count is_enqueue (history (settleFn tok f r s).1)
     = S (count is_enqueue (history s)).
Proof.
  unfold settleFn, handlePagedResponse, resolve, reject.
  destruct f as [rq p h|pr rq p h], r as [resp|e]; simpl;
    repeat case_match; simplify_eq/=;
    rewrite ?settle_self; try (left; done).
  right. by rewrite enqueue_history_count.
Qed.

(** X8.  A finished worker (empty queue, nothing processing) stays
    finished through every call and callback that does not enqueue:
    [start], [stop], [resetProgress], a firing of the pacer, and the
    callbacks of tasks. *)
Theorem finished_until_enqueue (s : World) (ev : Event) :
  finished s = true ->
  count is_enqueue (history (step s ev)) = count is_enqueue (history s) ->
  finished (step s ev) = true.
Proof.
  unfold finished. intros Hfin Hcount.
  apply andb_true_iff in Hfin as [Hq Hp]. apply negb_true_iff in Hp.
  destruct (queue (self s)) as [|x q] eqn:Eq; [clear Hq|done].
  assert (Hens : forall s, queue (self (ensureTimeout s)) = queue (self s)
                           /\ processing (self (ensureTimeout s)) = processing (self s)).
  { intros s1. unfold ensureTimeout. by destruct (timeout (self s1)). }
  destruct ev as [pr rq h|pr rq h| | | |hd|i r|i|i]; simpl in *.
  - rewrite enqueue_history_count in Hcount. simpl in Hcount. lia.
  - rewrite enqueue_history_count in Hcount. simpl in Hcount. lia.
  - unfold start in *. destruct (_started (self s)); simpl; [by rewrite Eq, Hp|].
    set (s1 := ensureTimeout (on_self (set_started true) s)) in *.
    assert (queue (self s1) = [] /\ processing (self s1) = false) as [Hq1 Hp1].
    { subst s1. destruct (Hens (on_self (set_started true) s)) as [-> ->]. done. }
    assert (count is_enqueue (history s1) = count is_enqueue (history s)) as Hh1.
    { subst s1. unfold ensureTimeout. simpl. by destruct (timeout (self s)). }
    destruct (queueFilled (self s1)); [by rewrite Hq1, Hp1|].
    unfold fillQueue in *.
    destruct (submit_all_effects fillItems
                (record CallFillQueue (on_self (set_queueFilled true) s1)))
      as (_ & Hlen & Hh & _ & Hpr & _).
    rewrite Hh in Hcount. simpl in Hcount, Hlen, Hpr.
    rewrite Hpr, Hp1.
    assert (length fillItems = 0) as Hz by lia.
    rewrite Hz, Hq1 in Hlen. simpl in Hlen.
    by destruct (queue (self (foldl submit _ fillItems))).
  - unfold stop, discardTimeout. simpl.
    destruct (_started (self s)), (timeout (self s)); simpl; by rewrite Eq, Hp.
  - unfold resetProgress. case_match; simpl; by rewrite ?Eq, Hp.
  - case_match; [|by rewrite Eq, Hp].
    unfold timerCallback, processQueue. simpl. rewrite Eq. simpl.
    by rewrite Eq, Hp.
  - destruct (inflight s !! i) as [[tok f [| |]]|] eqn:Hi;
      try (by rewrite Eq, Hp).
    destruct (settleFn_enqueues tok f r s) as [Hs|Hs];
      destruct (settleFn tok f r s) as [s' c]; simpl in *.
    + by rewrite Hs, Eq, Hp.
    + lia.
  - destruct (inflight s !! i) as [[tok f [|[|e]|]]|] eqn:Hi;
      simpl; try (by rewrite Eq, Hp).
    unfold catchCallback. case_match; simpl; by rewrite Eq, Hp.
  - destruct (inflight s !! i) as [[tok f [|c|]]|] eqn:Hi;
      try (by rewrite Eq, Hp).
    unfold finallyCallback.
    match goal with |- context [ensureTimeout ?s1] =>
      destruct (Hens s1) as [-> ->] end.
    case_match; simpl; by rewrite Eq.
Qed.

Lemma triple_eq (a b c a' b' c' : nat) :
  a = a' -> b = b' -> c = c' -> (a, b, c) = (a', b', c').
Proof. by intros -> -> ->. Qed.

Lemma counters_inv s d t e :
  counters s = (d, t, e) ->
  progressDone s = d /\ progressTotal s = t /\ progressError s = e.
Proof. by intros [= <- <- <-]. Qed.

(** X9.  Only [resetProgress] lowers a counter: through every other call
    or callback each of the three counters stays or grows. *)
Theorem counters_only_grow (s : World) (ev : Event) :
  ev <> CallsResetProgress ->
  progressDone s <= progressDone (step s ev)
  /\ progressTotal s <= progressTotal (step s ev)
  /\ progressError s <= progressError (step s ev).
Proof.
  intros Hev.
  pose proof counters_inv as Hcnt.
  destruct ev as [pr rq h|pr rq h| | | |hd|i r|i|i]; simpl; try done.
  - destruct (Hcnt _ _ _ _ (enqueue_counters pr (RequestFn rq (length (promises s)) h)
                             (set_promises (promises s ++ [Pending]) s)))
      as (-> & -> & ->).
    unfold progressDone, progressTotal, progressError. simpl. lia.
  - destruct (Hcnt _ _ _ _ (enqueue_counters pr (PagedFn pr rq (length (promises s)) h)
                             (set_promises (promises s ++ [Pending]) s)))
      as (-> & -> & ->).
    unfold progressDone, progressTotal, progressError. simpl. lia.
  - unfold start. destruct (_started (self s)); [done|].
    set (s1 := ensureTimeout (on_self (set_started true) s)).
    assert (counters s1 = counters s) as Hc1.
    { subst s1. by rewrite ensureTimeout_counters. }
    destruct (Hcnt _ _ _ _ Hc1) as (Hd & Ht & He).
    destruct (queueFilled (self s1)); [rewrite Hd, Ht, He; done|].
    unfold fillQueue.
    destruct (submit_all_effects fillItems
                (record CallFillQueue (on_self (set_queueFilled true) s1)))
      as (Hc & _).
    destruct (Hcnt _ _ _ _ Hc) as (-> & -> & ->).
    unfold progressDone, progressTotal, progressError in *. simpl.
    rewrite Hd, Ht, He. lia.
  - pose proof (stop_ledger s) as [= _ _ Hd Ht He _].
    by rewrite Hd, Ht, He.
  - case_match; [|done]. unfold timerCallback, processQueue. simpl.
    by destruct (queue (self s)).
  - destruct (inflight s !! i) as [[tok f [| |]]|] eqn:Hi; try done.
    destruct (settleFn_ledger tok f r s) as [Hl|[item Hl]];
      injection Hl as _ _ Hd Ht He _;
      destruct (settleFn tok f r s) as [s' c]; simpl in *;
      unfold progressDone, progressTotal, progressError in *; simpl;
      rewrite Hd, Ht, He; lia.
  - destruct (inflight s !! i) as [[tok f [|[|e]|]]|] eqn:Hi; try done.
    unfold catchCallback, progressDone, progressTotal, progressError.
    case_match; simpl; lia.
  - destruct (inflight s !! i) as [[tok f [|c|]]|] eqn:Hi; try done.
    unfold finallyCallback.
    match goal with |- context [ensureTimeout ?s1] =>
      pose proof (ensureTimeout_counters s1) as [= -> -> ->] end.
    unfold progressDone, progressTotal, progressError.
    case_match; simpl; lia.
Qed.

Lemma enqueue_armed priority f s : armed s = true -> armed (enqueue priority f s) = true.
Proof.
  unfold enqueue, ensureTimeout, armed. simpl.
  destruct (_started (self s)), (timeout (self s)) eqn:E; simpl;
    rewrite ?E; done.
Qed.

Lemma submit_all_armed l s : armed s = true -> armed (foldl submit s l) = true.
Proof.
  revert s. induction l as [|x l IH]; intros s H; simpl; [done|].
  apply IH. destruct x; by apply enqueue_armed.
Qed.

(** X10.  From any state whatsoever, [stop], then [resetProgress], then
    [start] begins a new lifecycle segment: the reset succeeds, the epoch
    is one higher, [fillQueue] is called exactly once, the counters read
    zero done, zero errors and as many dispatched as [fillQueue] enqueued,
    all of them queued, and the worker is started with its pacer armed. *)
Theorem restart_reseeds (s : World) :
  let s1 := stop s in
  let s2 := (resetProgress s1).1 in
  let s3 := start s2 in
  (resetProgress s1).2 = Normal
  /\ cancel (self s3) = S (cancel (self s))
  /\ count is_fillQueue (history s3) = S (count is_fillQueue (history s))
  /\ counters s3 = (0, length fillItems, 0)
  /\ length (queue (self s3)) = length fillItems
  /\ _started (self s3) = true
  /\ armed s3 = true.
Proof.
  cbn zeta.
  assert (Hstop : _started (self (stop s)) = false).
  { unfold stop. destruct (_started (self s)) eqn:E; simpl; [|done].
    unfold discardTimeout. simpl. by destruct (timeout (self s)). }
  assert (Hrun : running (stop s) = false).
  { unfold running, started. by rewrite Hstop. }
  pose proof (stop_ledger s) as [= _ Hcan _ _ _ _].
  assert (Hfills : count is_fillQueue (history (stop s)) = count is_fillQueue (history s)).
  { unfold stop, discardTimeout. simpl.
    by destruct (_started (self s)), (timeout (self s)). }
  unfold resetProgress. rewrite Hrun. simpl. split; [done|].
  unfold start. simpl. rewrite Hstop.
  set (s2 := on_self (set_started true) _).
  assert (queueFilled (self (ensureTimeout s2)) = false) as ->.
  { unfold ensureTimeout. subst s2. simpl. by destruct (timeout (self (stop s))). }
  unfold fillQueue.
  set (s3 := record CallFillQueue _).
  destruct (submit_all_effects fillItems s3) as (Hc & Hlen & _ & Hcan3 & _ & _).
  rewrite Hc, Hlen, Hcan3, submit_all_fillQueue_calls, submit_all_started.
  assert (armed s3 = true) as Harm.
  { subst s3. unfold armed. simpl.
    change (armed (ensureTimeout s2) = true). apply ensureTimeout_armed. }
  rewrite (submit_all_armed _ _ Harm).
  assert (Hs3 : counters s3 = (0, 0, 0) /\ queue (self s3) = []
                /\ cancel (self s3) = S (cancel (self (stop s)))
                /\ _started (self s3) = true
                /\ count is_fillQueue (history s3)
                   = S (count is_fillQueue (history (stop s)))).
  { subst s3 s2. unfold ensureTimeout. simpl.
    by destruct (timeout (self (stop s))). }
  destruct Hs3 as (Hc3 & Hq3 & Hcan' & Hst3 & Hf3).
  injection Hc3 as Hd He Ht. unfold progressDone, progressTotal, progressError in *.
  rewrite Hd, He, Ht, Hq3, Hcan', Hst3, Hf3, Hcan, Hfills. done.
Qed.

(** X11.  [resetProgress] on a worker that is started and finished
    succeeds but leaves it started: a following [start] returns at once,
    so [fillQueue] is not called and the queue stays empty.  (Only after
    [stop] does [start] seed the queue again.) *)
Theorem reset_while_started_is_not_reseeded (s : World) :
  _started (self s) = true ->
  finished s = true ->
  let s' := (resetProgress s).1 in
  (resetProgress s).2 = Normal
  /\ start s' = s'
  /\ queueFilled (self s') = false
  /\ queue (self s') = []
  /\ counters s' = (0, 0, 0)
  /\ count is_fillQueue (history (start s')) = count is_fillQueue (history s).
Proof.
  intros Hs Hf. cbn zeta.
  assert (Hrun : running s = false).
  { unfold running, started. by rewrite Hs, Hf. }
  unfold resetProgress. rewrite Hrun. simpl.
  unfold start. simpl. by rewrite Hs.
Qed.

(** X21.  The [finally] callback of a task does not look at [_started]:
    whenever it runs, also on a stopped worker, it removes the task,
    clears [processing] and leaves the pacer armed. *)
Theorem completion_always_rearms (s : World) (i : nat) (tok : CancelToken) (f : Fn) :
  inflight s !! i = Some (mkTask tok f Caught) ->
  let s' := step s (FinallyRuns i) in
  armed s' = true
  /\ processing (self s') = false
  /\ _started (self s') = _started (self s)
  /\ inflight s' = delete i (inflight s)
  /\ queue (self s') = queue (self s).
Proof.
  intros Hi. cbn zeta. simpl. rewrite Hi. unfold finallyCallback.
  split; [apply ensureTimeout_armed|].
  rewrite ensureTimeout_started.
  match goal with |- context [ensureTimeout ?s1] =>
    pose proof (ensureTimeout_ledger s1) as [= Hq _ _ _ _ Hinf];
    assert (processing (self (ensureTimeout s1)) = processing (self s1)) as Hp
      by (unfold ensureTimeout; by destruct (timeout (self s1)))
  end.
  rewrite Hq, Hinf, Hp. by case_match.
Qed.

(** *** The total counter and the calls of [enqueue] *)

Lemma settleFn_total tok f r s :
  progressTotal (settleFn tok f r s).1
  = progressTotal s
    + match f, r with
      | PagedFn _ _ _ handler, inl response =>
          if cancelled s tok then 0
          else match handler response with
               | Throws _ => 0
               | Returns _ =>
                   if hasNextPage response
                   then match nextPage response with
                        | Some _ => 1
                        | None => 0
                        end
                   else 0
               end
      | _, _ => 0
      end.
Proof.
  unfold settleFn, handlePagedResponse, resolve, reject.
  destruct f as [rq p h|pr rq p h], r as [resp|e]; simpl;
    repeat case_match; simplify_eq/=;
    unfold progressTotal; rewrite ?settle_self; simpl; try lia.
  match goal with |- context [enqueue ?pr ?f ?s1] =>
    destruct (counters_inv _ _ _ _ (enqueue_counters pr f s1)) as (_ & Ht & _)
  end.
  unfold progressTotal in Ht. rewrite Ht. simpl. lia.
Qed.

(** What one call or callback does to the total counter. *)
Lemma progressTotal_step s ev :
  progressTotal (step s ev)
  = if resets s ev then 0 else progressTotal s + enqueue_calls s ev.
Proof.
  destruct ev as [pr rq h|pr rq h| | | |hd|i r|i|i]; simpl.
  - destruct (counters_inv _ _ _ _
                (enqueue_counters pr (RequestFn rq (length (promises s)) h)
                   (set_promises (promises s ++ [Pending]) s))) as (_ & -> & _).
    unfold progressTotal. simpl. lia.
  - destruct (counters_inv _ _ _ _
                (enqueue_counters pr (PagedFn pr rq (length (promises s)) h)
                   (set_promises (promises s ++ [Pending]) s))) as (_ & -> & _).
    unfold progressTotal. simpl. lia.
  - unfold start. destruct (_started (self s)); [lia|].
    set (s1 := ensureTimeout (on_self (set_started true) s)).
    assert (progressTotal s1 = progressTotal s /\ queueFilled (self s1) = queueFilled (self s))
      as [Ht Hq].
    { subst s1. unfold ensureTimeout, progressTotal. simpl.
      by destruct (timeout (self s)). }
    rewrite Hq. destruct (queueFilled (self s)); [lia|].
    unfold fillQueue.
    destruct (submit_all_effects fillItems
                (record CallFillQueue (on_self (set_queueFilled true) s1)))
      as (Hc & _).
    destruct (counters_inv _ _ _ _ Hc) as (_ & -> & _).
    unfold progressTotal in *. simpl. by rewrite Ht.
  - pose proof (stop_ledger s) as [= _ _ _ Ht _ _]. rewrite Ht. lia.
  - unfold resetProgress. destruct (running s); simpl; [lia|done].
  - case_match; [|lia]. unfold timerCallback, processQueue, progressTotal. simpl.
    destruct (queue (self s)); simpl; lia.
  - destruct (inflight s !! i) as [[tok f [| |]]|] eqn:Hi;
      try (destruct r; try destruct f; lia).
    pose proof (settleFn_total tok f r s) as Ht.
    destruct (settleFn tok f r s) as [s' c]. simpl in Ht.
    unfold progressTotal in *. simpl. rewrite Ht.
    destruct f, r; lia.
  - destruct (inflight s !! i) as [[tok f [|[|e]|]]|] eqn:Hi; try lia;
      unfold catchCallback, progressTotal; simpl; [lia|].
    case_match; simpl; lia.
  - destruct (inflight s !! i) as [[tok f [|c|]]|] eqn:Hi; try lia.
    unfold finallyCallback.
    match goal with |- context [ensureTimeout ?s1] =>
      pose proof (ensureTimeout_counters s1) as [= _ Ht _]
    end.
    rewrite Ht. unfold progressTotal. case_match; simpl; lia.
Qed.

(** C6.  The total counter equals the number of [enqueue] calls made since
    the last successful [resetProgress]: along every run from every
    state [s], the counter starts from its value in [s], returns to 0 at
    each reset that does not throw, and goes up by exactly the number of
    [enqueue] calls each call or callback makes; so after a run from the
    new worker it is the number of [enqueue] calls since the last reset
    (since construction, if there was none). *)
Theorem progressTotal_counts_enqueue_calls (s : World) (tr : list Event) :
  progressTotal (run s tr) = enqueue_calls_since_reset (progressTotal s) s tr
  /\ progressTotal (run new_world tr) = enqueue_calls_since_reset 0 new_world tr.
Proof.
  assert (Hrun : forall tr s,
            progressTotal (run s tr)
            = enqueue_calls_since_reset (progressTotal s) s tr).
  { clear. intros tr. induction tr as [|ev tr IH]; intros s; simpl; [done|].
    change (foldl step (step s ev) tr) with (run (step s ev) tr).
    by rewrite IH, progressTotal_step. }
  split; [apply Hrun|apply (Hrun tr new_world)].
Qed.

(** *** Who starts tasks *)

(** X5.  Tasks are started by the pacer alone.  A firing of the pacer
    either leaves the tasks in flight as they are or pops the head of the
    queue and puts exactly that one item in flight, awaiting, with the
    current epoch as its token.  After any other call or callback the
    tasks in flight are among those that were in flight before, in the
    same order, and no more of them are awaiting a response: none has
    been started. *)
Theorem only_pacer_starts_tasks (s : World) (ev : Event) :
  match ev with
  | TimerFires _ =>
      inflight (step s ev) = inflight s
      \/ exists one q,
           queue (self s) = one :: q
           /\ queue (self (step s ev)) = q
           /\ inflight (step s ev)
              = inflight s ++ [mkTask (cancel (self s)) (fn one) Awaiting]
  | _ =>
      task_id <$> inflight (step s ev) `sublist_of` task_id <$> inflight s
      /\ count is_awaiting (inflight (step s ev))
         <= count is_awaiting (inflight s)
  end.
Proof.
  assert (Hsame : forall s', inflight s' = inflight s ->
            task_id <$> inflight s' `sublist_of` task_id <$> inflight s
            /\ count is_awaiting (inflight s') <= count is_awaiting (inflight s)).
  { intros s' ->. done. }
  assert (Hphase : forall s' i tok f ph ph',
            inflight s !! i = Some (mkTask tok f ph) ->
            is_awaiting (mkTask tok f ph') = false ->
            inflight s' = <[i := mkTask tok f ph']> (inflight s) ->
            task_id <$> inflight s' `sublist_of` task_id <$> inflight s
            /\ count is_awaiting (inflight s') <= count is_awaiting (inflight s)).
  { intros s' i tok f ph ph' Hi Hph ->. split.
    - rewrite list_fmap_insert, list_insert_id; [done|].
      by rewrite list_lookup_fmap, Hi.
    - pose proof (count_replace is_awaiting _ i _ (mkTask tok f ph') Hi) as Hc.
      rewrite Hph in Hc. lia. }
  destruct ev as [pr rq h|pr rq h| | | |hd|i r|i|i].
  - apply Hsame. simpl. by pose proof (enqueue_ledger pr (RequestFn rq (length (promises s)) h)
                  (set_promises (promises s ++ [Pending]) s)) as [= _ _ _ _ _ ->].
  - apply Hsame. simpl. by pose proof (enqueue_ledger pr (PagedFn pr rq (length (promises s)) h)
                  (set_promises (promises s ++ [Pending]) s)) as [= _ _ _ _ _ ->].
  - apply Hsame. simpl. unfold start. destruct (_started (self s)); [done|].
    set (s1 := ensureTimeout (on_self (set_started true) s)).
    assert (inflight s1 = inflight s) as H1.
    { subst s1. by pose proof (ensureTimeout_ledger (on_self (set_started true) s))
        as [= _ _ _ _ _ ->]. }
    destruct (queueFilled (self s1)); [done|]. unfold fillQueue.
    destruct (submit_all_effects fillItems
                (record CallFillQueue (on_self (set_queueFilled true) s1)))
      as (_ & _ & _ & _ & _ & ->). done.
  - apply Hsame. simpl. by pose proof (stop_ledger s) as [= _ _ _ _ _ ->].
  - apply Hsame. simpl. unfold resetProgress. by destruct (running s).
  - simpl. case_match; [|by left]. unfold timerCallback, processQueue. simpl.
    destruct (queue (self s)) as [|one q]; simpl; [by left|].
    right. by exists one, q.
  - simpl. destruct (inflight s !! i) as [[tok f [| |]]|] eqn:Hi;
      try (by apply Hsame).
    pose proof (settleFn_tasks tok f r s) as Hinf.
    destruct (settleFn tok f r s) as [s' c]. simpl in Hinf.
    apply (Hphase _ i tok f Awaiting (Settled c)); try done.
    simpl. by rewrite Hinf.
  - simpl. destruct (inflight s !! i) as [[tok f [|c|]]|] eqn:Hi;
      try (by apply Hsame).
    apply (Hphase _ i tok f (Settled c) Caught); try done.
    simpl. destruct c as [|e]; [done|]. unfold catchCallback. by case_match.
  - simpl. destruct (inflight s !! i) as [[tok f [|c|]]|] eqn:Hi;
      try (by apply Hsame).
    unfold finallyCallback.
    set (s1 := record CallUpdateProgressLazy _).
    assert (inflight (ensureTimeout s1) = delete i (inflight s)) as ->.
    { transitivity (inflight s1).
      - unfold ensureTimeout. by destruct (timeout (self s1)).
      - subst s1. simpl. by case_match. }
    split.
    + rewrite list_fmap_delete. apply sublist_delete.
    + pose proof (count_delete is_awaiting _ i _ Hi). lia.
Qed.

(** ** Further properties of the promises *)

Lemma run_preserves (P : World -> Prop) :
  (forall s ev, P s -> P (step s ev)) ->
  forall tr s, P s -> P (run s tr).
Proof.
  intros Hstep tr. induction tr as [|ev tr IH]; intros s H; simpl; [done|].
  apply IH. by apply Hstep.
Qed.

(** X12.  A request enqueued with [enqueueRequest] whose response arrives
    while its token is current and whose handler returns [v]: the handler
    is called once, with that response, the promise [enqueueRequest]
    returned is fulfilled with [v], the closure's own promise is
    fulfilled, and no counter moves yet. *)
Theorem request_fulfils_with_handler_result
    (tr : list Event) (i : nat) (rq : Request) (p : PromiseId) (h : Handler)
    (resp : Response) (v : JsVal) :
  let s := run new_world tr in
  inflight s !! i = Some (mkTask (cancel (self s)) (RequestFn rq p h) Awaiting) ->
  h resp = Returns v ->
  let s' := step s (RequestSettles i (inl resp)) in
  promises s' !! p = Some (Fulfilled v)
  /\ history s' = CallHandler resp :: history s
  /\ counters s' = counters s
  /\ inflight s' !! i
     = Some (mkTask (cancel (self s)) (RequestFn rq p h) (Settled Normal)).
Proof.
  cbn zeta. intros Hi Hh.
  pose proof (awaiting_promise_pending tr i _ _ Hi) as Hp. simpl in Hp.
  pose proof (lookup_lt_Some _ _ _ Hi) as Hlt.
  simpl. rewrite Hi. simpl. rewrite cancelled_current, Hh. simpl.
  unfold resolve, counters, progressDone, progressTotal, progressError. simpl.
  rewrite settle_history, settle_self, settle_inflight.
  simpl. repeat split; try done.
  - by apply settle_pending.
  - by apply list_lookup_insert_eq.
Qed.

(** *** Promises nobody can settle any more *)

Lemma orphaned_vault p s s' : vault s' = vault s -> orphaned p s -> orphaned p s'.
Proof.
  unfold vault, orphaned, held_promises.
  intros [= Hq Hi Hp]. by rewrite Hq, Hi, Hp.
Qed.

Lemma orphaned_enqueue_new p priority (mk : PromiseId -> Fn) s :
  (forall q, promise_of (mk q) = q) ->
  orphaned p s ->
  orphaned p (enqueue priority (mk (length (promises s))) (newPromise s).2).
Proof.
  intros Hmk [Hpend Hfree].
  pose proof (lookup_lt_Some _ _ _ Hpend) as Hlt.
  change (newPromise s).2 with (set_promises (promises s ++ [Pending]) s).
  set (s1 := set_promises (promises s ++ [Pending]) s).
  pose proof (enqueue_vault priority (mk (length (promises s))) s1) as [= Hq Hi Hp].
  unfold orphaned, held_promises. rewrite Hq, Hi, Hp. subst s1. simpl.
  split; [by rewrite lookup_app_l|].
  rewrite push_perm. simpl. rewrite Hmk.
  intros Hin. apply elem_of_cons in Hin as [->|Hin]; [lia|done].
Qed.

Lemma orphaned_settles p s i tok f r :
  inflight s !! i = Some (mkTask tok f Awaiting) ->
  orphaned p s -> orphaned p (step s (RequestSettles i r)).
Proof.
  intros Hi [Hpend Hfree]. simpl. rewrite Hi.
  pose proof (settleFn_vault tok f r s) as Hv.
  pose proof (settleFn_tasks tok f r s) as Hinf.
  destruct (settleFn tok f r s) as [s' c]. simpl in Hv, Hinf.
  pose proof (awaiting_promises_release _ _ _ _ (Settled c) Hi eq_refl) as Hrel.
  set (A' := awaiting_promises (<[i := mkTask tok f (Settled c)]> (inflight s))) in *.
  set (Q := map (fun x => promise_of (fn x)) (queue (self s))).
  assert (Hperm : held_promises s ≡ₚ promise_of f :: Q ++ A').
  { unfold held_promises. fold Q. rewrite Hrel. by rewrite Permutation_middle. }
  rewrite Hperm in Hfree.
  apply not_elem_of_cons in Hfree as [Hne Hfree].
  unfold orphaned, held_promises. simpl. rewrite Hinf. fold A'.
  destruct Hv as [[st Hv]|[Hv|(item & Hitem & Hv)]];
    injection Hv as Hq _ Hp; rewrite Hq, Hp.
  - fold Q. split; [|done]. by rewrite settle_other.
  - by fold Q.
  - split; [done|]. rewrite push_perm. simpl. rewrite Hitem.
    by apply not_elem_of_cons.
Qed.

Lemma orphaned_submit_all p l s : orphaned p s -> orphaned p (foldl submit s l).
Proof.
  revert s. induction l as [|x l IH]; intros s H; simpl; [done|].
  apply IH. destruct x as [pr rq h|pr rq h]; simpl.
  - by apply (orphaned_enqueue_new p pr (fun q => RequestFn rq q h)).
  - by apply (orphaned_enqueue_new p pr (fun q => PagedFn pr rq q h)).
Qed.

Lemma orphaned_step p s ev : orphaned p s -> orphaned p (step s ev).
Proof.
  intros H. destruct ev as [pr rq h|pr rq h| | | |hd|i r|i|i].
  - by apply (orphaned_enqueue_new p pr (fun q => RequestFn rq q h)).
  - by apply (orphaned_enqueue_new p pr (fun q => PagedFn pr rq q h)).
  - simpl. unfold start. case_match; [done|].
    assert (orphaned p (ensureTimeout (on_self (set_started true) s))) as H'.
    { apply (orphaned_vault p s); [|done]. by rewrite ensureTimeout_vault. }
    case_match; [done|]. unfold fillQueue. apply orphaned_submit_all.
    revert H'. by apply orphaned_vault.
  - simpl. unfold stop. case_match; [done|].
    apply (orphaned_vault p s); [|done]. by rewrite discardTimeout_vault.
  - destruct H as [Hpend Hfree]. simpl. unfold resetProgress.
    case_match; [done|]. unfold orphaned, held_promises in *. simpl.
    split; [done|]. intros Hin. apply Hfree, elem_of_app. by right.
  - simpl. case_match; [|done]. destruct H as [Hpend Hfree].
    unfold timerCallback, processQueue. simpl.
    destruct (queue (self s)) as [|one q] eqn:Hq; simpl.
    + unfold orphaned, held_promises in *. simpl. by rewrite Hq in *.
    + unfold orphaned, held_promises in *. simpl. rewrite Hq in Hfree.
      split; [done|]. rewrite awaiting_promises_app. simpl in *.
      rewrite app_assoc, <- Permutation_cons_append. done.
  - destruct (inflight s !! i) as [[tok f [| |]]|] eqn:Hi;
      try (simpl; by rewrite Hi).
    by apply (orphaned_settles p s i tok f).
  - simpl. destruct (inflight s !! i) as [[tok f [|c|]]|] eqn:Hi; try done.
    destruct H as [Hpend Hfree].
    assert (forall s1, vault s1 = vault s ->
              orphaned p (set_inflight (<[i := mkTask tok f Caught]> (inflight s1)) s1)) as Hc.
    { intros s1 [= Hq Hin Hp]. unfold orphaned, held_promises. simpl.
      rewrite Hq, Hin, Hp.
      by rewrite (awaiting_promises_rephase _ _ _ (mkTask tok f Caught) Hi). }
    destruct c as [|e]; apply Hc; [done|].
    unfold catchCallback. by case_match.
  - simpl. destruct (inflight s !! i) as [[tok f [|c|]]|] eqn:Hi; try done.
    destruct H as [Hpend Hfree].
    apply (orphaned_vault p (set_inflight (delete i (inflight s)) s)).
    { unfold finallyCallback. rewrite ensureTimeout_vault. by case_match. }
    unfold orphaned, held_promises. simpl.
    by rewrite (awaiting_promises_delete _ _ _ Hi).
Qed.

(** X13.  When the request of an [enqueueRequest] fails, or when its
    handler throws while the token is current, the promise that
    [enqueueRequest] returned is neither fulfilled nor rejected: it is
    still pending after that step and after every further run. *)
Theorem failed_request_never_settles
    (tr : list Event) (i : nat) (tok : CancelToken) (rq : Request)
    (p : PromiseId) (h : Handler) (r : Response + JsVal) (tr' : list Event) :
  let s := run new_world tr in
  inflight s !! i = Some (mkTask tok (RequestFn rq p h) Awaiting) ->
  match r with
  | inr _ => True
  | inl resp => cancelled s tok = false /\ exists e, h resp = Throws e
  end ->
  promises (run (step s (RequestSettles i r)) tr') !! p = Some Pending.
Proof.
  cbn zeta. intros Hi Hr.
  assert (orphaned p (step (run new_world tr) (RequestSettles i r))) as Horph.
  { pose proof (awaiting_promise_pending tr i _ _ Hi) as Hp. simpl in Hp.
    destruct (custody_run tr) as [Hnd _].
    pose proof (awaiting_promises_release _ _ _ _ (Settled Normal) Hi eq_refl) as Hrel.
    assert (forall c, p ∉ map (fun x => promise_of (fn x)) (queue (self (run new_world tr)))
              ++ awaiting_promises
                   (<[i := mkTask tok (RequestFn rq p h) (Settled c)]>
                      (inflight (run new_world tr)))) as Hfree.
    { intros c.
      pose proof (awaiting_promises_release _ _ _ _ (Settled c) Hi eq_refl) as Hrel'.
      unfold held_promises in Hnd. rewrite Hrel' in Hnd. simpl in Hnd.
      rewrite <- Permutation_middle in Hnd. by apply NoDup_cons in Hnd as [? _]. }
    simpl. rewrite Hi. simpl. unfold orphaned, held_promises.
    destruct r as [resp|e]; simpl.
    - destruct Hr as [Hc [e He]]. rewrite Hc, He. simpl. split; [done|apply Hfree].
    - split; [done|apply Hfree]. }
  by destruct (run_preserves (orphaned p) (orphaned_step p) tr' _ Horph).
Qed.

(** X14.  A page of a paged request that arrives when the epoch is no
    longer the task's token ends the chain: the promise returned by
    [enqueuePagedRequest] is rejected with ['cancelled'], the handler is
    not called, no continuation is enqueued and no counter moves. *)
Theorem stale_page_ends_chain
    (tr : list Event) (i : nat) (tok : CancelToken) (pr : Z) (rq : Request)
    (p : PromiseId) (h : Handler) (resp : Response) :
  let s := run new_world tr in
  inflight s !! i = Some (mkTask tok (PagedFn pr rq p h) Awaiting) ->
  tok <> cancel (self s) ->
  let s' := step s (RequestSettles i (inl resp)) in
  promises s' !! p = Some (Rejected (VString "cancelled"))
  /\ history s' = history s
  /\ queue (self s') = queue (self s)
  /\ counters s' = counters s.
Proof.
  cbn zeta. intros Hi Htok.
  pose proof (awaiting_promise_pending tr i tok _ Hi) as Hp. simpl in Hp.
  simpl. rewrite Hi. simpl. unfold handlePagedResponse.
  rewrite (cancelled_stale _ _ Htok). simpl. unfold reject.
  unfold counters, progressDone, progressTotal, progressError. simpl.
  rewrite settle_history, settle_self. repeat split; try done.
  by apply settle_pending.
Qed.

(** X22.  A page of a paged request whose handler throws [e] while the
    token is current: the promise returned by [enqueuePagedRequest] is
    rejected with [e], no continuation is enqueued, the closure's own
    promise is rejected with [e], and the [catch] callback that follows
    counts one error. *)
Theorem page_handler_failure_rejects
    (tr : list Event) (i : nat) (pr : Z) (rq : Request) (p : PromiseId)
    (h : Handler) (resp : Response) (e : JsVal) :
  let s := run new_world tr in
  inflight s !! i = Some (mkTask (cancel (self s)) (PagedFn pr rq p h) Awaiting) ->
  h resp = Throws e ->
  let s' := step s (RequestSettles i (inl resp)) in
  promises s' !! p = Some (Rejected e)
  /\ history s' = CallHandler resp :: history s
  /\ queue (self s') = queue (self s)
  /\ counters s' = counters s
  /\ inflight s' !! i
     = Some (mkTask (cancel (self s)) (PagedFn pr rq p h) (Settled (Throw e)))
  /\ counters (step s' (CatchRuns i))
     = (progressDone s, progressTotal s, S (progressError s)).
Proof.
  cbn zeta. intros Hi Hh.
  pose proof (awaiting_promise_pending tr i _ _ Hi) as Hp. simpl in Hp.
  pose proof (lookup_lt_Some _ _ _ Hi) as Hlt.
  set (s := run new_world tr) in *.
  assert (Hstep : step s (RequestSettles i (inl resp))
                  = set_inflight
                      (<[i := mkTask (cancel (self s)) (PagedFn pr rq p h)
                                (Settled (Throw e))]> (inflight s))
                      (reject p e (record (CallHandler resp) s))).
  { simpl. rewrite Hi. simpl. unfold handlePagedResponse.
    rewrite cancelled_current, Hh. simpl.
    unfold reject. by rewrite settle_inflight. }
  rewrite Hstep. clear Hstep. unfold reject.
  set (s1 := settle p (Rejected e) (record (CallHandler resp) s)).
  assert (Hself : self s1 = self s) by (subst s1; by rewrite settle_self).
  assert (Hhist : history s1 = CallHandler resp :: history s)
    by (subst s1; by rewrite settle_history).
  assert (Hprom : promises s1 !! p = Some (Rejected e))
    by (subst s1; by apply settle_pending).
  unfold counters, progressDone, progressTotal, progressError. simpl.
  rewrite Hself, Hhist. repeat split; try done.
  - by apply list_lookup_insert_eq.
  - rewrite list_lookup_insert_eq by done.
    unfold catchCallback, cancelled. simpl. rewrite Hself, Nat.eqb_refl. simpl.
    by rewrite Hself.
Qed.

End Worker.

(** ** The scenarios, evaluated *)

(** The queue hands out items by ascending priority and, among equal
    priorities, in the order of arrival. *)
Example push_order :
  let item n p := mkItem p (RequestFn n 0 echo) in
  map (fun x => request_of (fn x))
    (foldl (fun q x => PriorityQueue.push x q) PriorityQueue.new
       [item 1 5%Z; item 2 1%Z; item 3 3%Z; item 4 1%Z])
  = [2; 4; 3; 1].
Proof. reflexivity. Qed.

(** C1, as stated, fails: after one request that is enqueued, started and
    rejected, done + errors = 2 while total = 1. *)
Lemma failed_task_counted_twice :
  ~ (forall (workDelay : nat) (fillItems : list Submission) (tr : list Event),
       let s := run workDelay fillItems new_world tr in
       progressDone s + progressError s <= progressTotal s).
Proof.
  intros H. specialize (H 1000 [] failing_run). vm_compute in H. lia.
Qed.

Example failing_run_counters :
  counters (run 1000 [] new_world failing_run) = (1, 1, 1).
Proof. reflexivity. Qed.

(** Three requests are enqueued; a reset then empties the books, and
    [start] has [fillQueue] enqueue two. *)
Example total_counts_calls_since_reset :
  let three := [CallsEnqueueRequest 0 7 echo; CallsEnqueueRequest 0 8 echo;
                CallsEnqueuePagedRequest 0 9 echo] in
  enqueue_calls_since_reset 1000 two_requests 0 new_world three = 3
  /\ progressTotal (run 1000 two_requests new_world three) = 3
  /\ enqueue_calls_since_reset 1000 two_requests 0 new_world
       (three ++ [CallsResetProgress; CallsStart]) = 2
  /\ progressTotal
       (run 1000 two_requests new_world (three ++ [CallsResetProgress; CallsStart]))
     = 2.
Proof. cbn zeta. by vm_compute. Qed.

(** C2 fails on the code: when [enqueue] arms the pacer while a task is in
    flight and the pacer fires before that task completes, two tasks await
    their responses at once. *)
Theorem two_tasks_in_flight :
  let s := run 1000 [] new_world overlapping_run in
  count is_awaiting (inflight s) = 2
  /\ map request_of (map body (inflight s)) = [7; 8]
  /\ processing (self s) = true.
Proof. cbn zeta. by vm_compute. Qed.

(** When the first of the two then completes, [finished] holds although
    the second is still awaiting its response. *)
Example finished_with_task_in_flight :
  let s := run 1000 [] new_world
             (overlapping_run
              ++ [RequestSettles 0 (inl lastPage); CatchRuns 0; FinallyRuns 0]) in
  finished s = true /\ count is_awaiting (inflight s) = 1.
Proof. cbn zeta. by vm_compute. Qed.

(** The same through the public methods alone: [stop] and [start] while
    the first task of [fillQueue] is in flight. *)
Example two_tasks_in_flight_after_restart :
  let s := run 1000 two_requests new_world restart_run in
  count is_awaiting (inflight s) = 2.
Proof. reflexivity. Qed.

(** C3, as stated, fails: [start] arms the pacer of a worker whose queue
    is empty and stays empty, while nothing is processing. *)
Lemma pacer_armed_on_empty_queue :
  ~ pacer_iff_claim (run 1000 [] new_world [CallsStart]).
Proof.
  intros [[H _]|H]; [|discriminate H].
  destruct H as [_ H]; [reflexivity|]. by apply H.
Qed.

(** The completion of a task arms the pacer of a stopped worker. *)
Example pacer_armed_while_stopped :
  let s := run 1000 [] new_world stop_midflight_run in
  _started (self s) = false /\ armed s = true /\ timers s = [2]
  /\ length (queue (self s)) = 1.
Proof. cbn zeta. by vm_compute. Qed.

(** ** The theorems at concrete inputs *)

Lemma pacer_armed_when_work_waits_witness :
  let s := run 1000 [] new_world [CallsEnqueueRequest 0 7 echo; CallsStart] in
  _started (self s) = true /\ queue (self s) <> [] /\ processing (self s) = false
  /\ armed s = true.
Proof.
  cbn zeta. split; [reflexivity|]. split; [by vm_compute|].
  split; [reflexivity|].
  apply (pacer_armed_when_work_waits 1000 []
           [CallsEnqueueRequest 0 7 echo; CallsStart]);
    [reflexivity|by vm_compute|reflexivity].
Defined.

Lemma start_twice_fills_once_witness :
  _started (self new_world) = false /\ queueFilled (self new_world) = false
  /\ count is_fillQueue
       (history (start 1000 two_requests (start 1000 two_requests new_world)))
     = S (count is_fillQueue (history new_world))
  /\ start 1000 two_requests (start 1000 two_requests new_world)
     = start 1000 two_requests new_world.
Proof.
  split; [reflexivity|]. split; [reflexivity|].
  apply (start_twice_fills_once 1000 two_requests new_world); reflexivity.
Defined.

Lemma resetProgress_guarded_witness :
  let busy := run 1000 [] new_world [CallsEnqueueRequest 0 7 echo; CallsStart] in
  (running busy = true
   /\ resetProgress busy
      = (busy, Throw (VString "cannot reset progress while running")))
  /\ (running new_world = false
      /\ exists s', resetProgress new_world = (s', Normal)
           /\ queue (self s') = []
           /\ counters s' = (0, 0, 0)
           /\ queueFilled (self s') = false
           /\ cancel (self s') = S (cancel (self new_world))).
Proof.
  cbn zeta. split; (split; [reflexivity|]).
  - apply (proj1 (resetProgress_guarded
                    (run 1000 [] new_world [CallsEnqueueRequest 0 7 echo; CallsStart]))).
    reflexivity.
  - apply (proj2 (resetProgress_guarded new_world)). reflexivity.
Defined.

Lemma stale_outcome_changes_no_counter_witness :
  let s := run 1000 [] new_world superseded_run in
  let t := mkTask 0 (RequestFn 7 0 echo) Awaiting in
  inflight s !! 0 = Some t /\ token t <> cancel (self s)
  /\ counters (step 1000 [] s (RequestSettles 0 (inl lastPage))) = counters s
  /\ counters (step 1000 [] s (CatchRuns 0)) = counters s
  /\ counters (step 1000 [] s (FinallyRuns 0)) = counters s
  /\ counters (step 1000 []
                (step 1000 [] (step 1000 [] s (RequestSettles 0 (inl lastPage)))
                   (CatchRuns 0))
                (FinallyRuns 0))
     = counters s.
Proof.
  cbn zeta. split; [reflexivity|]. split; [by vm_compute|].
  apply (stale_outcome_changes_no_counter 1000 []
           (run 1000 [] new_world superseded_run) 0
           (mkTask 0 (RequestFn 7 0 echo) Awaiting) (inl lastPage));
    [reflexivity|by vm_compute].
Defined.

Lemma current_outcome_counts_done_witness :
  let s := run 1000 [] new_world rejected_run in
  let s1 := step 1000 [] s (CatchRuns 0) in
  let s2 := step 1000 [] s1 (FinallyRuns 0) in
  inflight s !! 0 = Some (mkTask 0 (RequestFn 7 0 echo) (Settled (Throw (VString "boom"))))
  /\ 0 = cancel (self s)
  /\ counters s1 = (progressDone s, progressTotal s, progressError s + 1)
  /\ counters s2 = (S (progressDone s), progressTotal s, progressError s + 1).
Proof.
  cbn zeta. split; [reflexivity|]. split; [reflexivity|].
  apply (current_outcome_counts_done 1000 []
           (run 1000 [] new_world rejected_run) 0 0 (RequestFn 7 0 echo)
           (Throw (VString "boom")));
    reflexivity.
Defined.

Lemma stale_request_rejects_cancelled_witness :
  let s := run 1000 [] new_world superseded_run in
  let s' := step 1000 [] s (RequestSettles 0 (inl lastPage)) in
  inflight s !! 0 = Some (mkTask 0 (RequestFn 7 0 echo) Awaiting)
  /\ 0 <> cancel (self s)
  /\ promises s !! 0 = Some Pending
  /\ promises s' !! 0 = Some (Rejected (VString "cancelled"))
  /\ history s' = history s.
Proof.
  cbn zeta. split; [reflexivity|]. split; [by vm_compute|].
  apply (stale_request_rejects_cancelled 1000 [] superseded_run 0 0 7 0 echo
           lastPage);
    [reflexivity|by vm_compute].
Defined.

Lemma paged_request_rejects_witness :
  let s := run 1000 [] new_world paged_run in
  let s1 := step 1000 [] s (RequestSettles 0 (inl lyingPage)) in
  let s2 := step 1000 [] s (RequestSettles 0 (inr (VString "boom"))) in
  inflight s !! 0 = Some (mkTask 0 (PagedFn 0 7 0 echo) Awaiting)
  /\ hasNextPage lyingPage = true /\ nextPage lyingPage = None
  /\ (promises s1 !! 0 = Some (Rejected (VString "AWS is a liar"))
      /\ queue (self s1) = queue (self s)
      /\ progressTotal s1 = progressTotal s)
  /\ (promises s2 !! 0 = Some (Rejected (VString "boom"))
      /\ queue (self s2) = queue (self s)
      /\ progressTotal s2 = progressTotal s
      /\ history s2 = history s).
Proof.
  cbn zeta. split; [reflexivity|]. split; [reflexivity|]. split; [reflexivity|].
  destruct (paged_request_rejects 1000 [] paged_run 0 0 0 7 0 echo eq_refl)
    as [Hliar Hfail].
  split.
  - exact (Hliar lyingPage eq_refl eq_refl).
  - exact (Hfail (VString "boom")).
Defined.

(** ** A paged request from the first page to the last *)

Lemma run_app (workDelay : nat) (fillItems : list Submission) s tr1 tr2 :
  run workDelay fillItems s (tr1 ++ tr2)
  = run workDelay fillItems (run workDelay fillItems s tr1) tr2.
Proof. unfold run. apply foldl_app. Qed.

(** Fetching a page that has a successor leaves the worker poised for the
    next page. *)
Lemma page_with_successor (workDelay k : nat) (pr : Z) (p : PromiseId)
    (h : Handler) (s : World) (resp : Response) (v : JsVal) :
  poised k pr p h s ->
  hasNextPage resp = true ->
  is_Some (nextPage resp) ->
  h resp = Returns v ->
  let s' := run workDelay [] s (page_events k resp) in
  poised (S k) pr p h s'
  /\ counters s' = (S (progressDone s), S (progressTotal s), progressError s)
  /\ handler_calls (history s') = handler_calls (history s) ++ [resp].
Proof.
  intros ([rq Hq] & Hst & Hto & Hti & Hnt & Hinf & Hp) Hmore [rq' Hnext] Hh.
  destruct s as [[q qf st pc to c d t e] ti nt ps inf hi].
  simpl in Hq, Hst, Hto, Hti, Hnt, Hinf, Hp. subst.
  set (f := PagedFn pr rq p h).
  set (s0 := mkWorld (mkWorker [mkItem pr f] qf true pc (Some k) c d t e)
               [k] (S k) ps [] hi).
  set (s1 := mkWorld (mkWorker [] qf true true None c d t e)
               [] (S k) ps [mkTask c f Awaiting] (CallRequestPromise rq :: hi)).
  set (hi2 := CallSetTimeout (S k) workDelay :: CallUpdateProgressLazy
              :: CallEnqueue :: CallHandler resp :: CallRequestPromise rq :: hi).
  set (w2 := mkWorker [mkItem pr (PagedFn pr rq' p h)] qf true true (Some (S k))
               c d (S t) e).
  set (s2 := mkWorld w2 [S k] (S (S k)) ps [mkTask c f (Settled Normal)] hi2).
  set (s3 := mkWorld w2 [S k] (S (S k)) ps [mkTask c f Caught] hi2).
  set (s4 := mkWorld
               (mkWorker [mkItem pr (PagedFn pr rq' p h)] qf true false
                  (Some (S k)) c (S d) (S t) e)
               [S k] (S (S k)) ps [] (CallUpdateProgressLazy :: hi2)).
  assert (E1 : step workDelay [] s0 (TimerFires k) = s1).
  { subst s0 s1. simpl.
    rewrite bool_decide_eq_true_2 by (apply list_elem_of_here).
    rewrite filter_cons_False by (intros ?; done). reflexivity. }
  assert (E2 : step workDelay [] s1 (RequestSettles 0 (inl resp)) = s2).
  { subst s1 s2 w2 hi2 f. simpl. unfold handlePagedResponse, cancelled. simpl.
    rewrite Nat.eqb_refl. simpl. rewrite Hh, Hmore, Hnext. reflexivity. }
  assert (E3 : step workDelay [] s2 (CatchRuns 0) = s3) by reflexivity.
  assert (E4 : step workDelay [] s3 (FinallyRuns 0) = s4).
  { subst s3 s4 w2. simpl. unfold finallyCallback, cancelled. simpl.
    rewrite Nat.eqb_refl. reflexivity. }
  lazy zeta.
  change (run workDelay [] s0 (page_events k resp))
    with (step workDelay []
            (step workDelay []
               (step workDelay [] (step workDelay [] s0 (TimerFires k))
                  (RequestSettles 0 (inl resp)))
               (CatchRuns 0))
            (FinallyRuns 0)).
  rewrite E1, E2, E3, E4. subst s4 hi2. split; [|split].
  - unfold poised. simpl. repeat split; try done. by exists rq'.
  - reflexivity.
  - unfold handler_calls. simpl. reflexivity.
Qed.

(** Fetching the last page fulfils the promise and leaves nothing to do. *)
Lemma page_without_successor (workDelay k : nat) (pr : Z) (p : PromiseId)
    (h : Handler) (s : World) (resp : Response) (v : JsVal) :
  poised k pr p h s ->
  hasNextPage resp = false ->
  h resp = Returns v ->
  let s' := run workDelay [] s (page_events k resp) in
  promises s' !! p = Some (Fulfilled VUndefined)
  /\ counters s' = (S (progressDone s), progressTotal s, progressError s)
  /\ handler_calls (history s') = handler_calls (history s) ++ [resp]
  /\ queue (self s') = []
  /\ inflight s' = [].
Proof.
  intros ([rq Hq] & Hst & Hto & Hti & Hnt & Hinf & Hp) Hmore Hh.
  destruct s as [[q qf st pc to c d t e] ti nt ps inf hi].
  simpl in Hq, Hst, Hto, Hti, Hnt, Hinf, Hp. subst.
  set (f := PagedFn pr rq p h).
  set (s0 := mkWorld (mkWorker [mkItem pr f] qf true pc (Some k) c d t e)
               [k] (S k) ps [] hi).
  set (s1 := mkWorld (mkWorker [] qf true true None c d t e)
               [] (S k) ps [mkTask c f Awaiting] (CallRequestPromise rq :: hi)).
  set (hi2 := CallHandler resp :: CallRequestPromise rq :: hi).
  set (ps2 := <[p := Fulfilled VUndefined]> ps).
  set (w2 := mkWorker [] qf true true None c d t e).
  set (s2 := mkWorld w2 [] (S k) ps2 [mkTask c f (Settled Normal)] hi2).
  set (s3 := mkWorld w2 [] (S k) ps2 [mkTask c f Caught] hi2).
  set (s4 := mkWorld (mkWorker [] qf true false (Some (S k)) c (S d) t e)
               [S k] (S (S k)) ps2 []
               (CallSetTimeout (S k) workDelay :: CallUpdateProgressLazy :: hi2)).
  assert (E1 : step workDelay [] s0 (TimerFires k) = s1).
  { subst s0 s1. simpl.
    rewrite bool_decide_eq_true_2 by (apply list_elem_of_here).
    rewrite filter_cons_False by (intros ?; done). reflexivity. }
  assert (E2 : step workDelay [] s1 (RequestSettles 0 (inl resp)) = s2).
  { subst s1 s2 w2 hi2 ps2 f. simpl.
    unfold handlePagedResponse, cancelled, resolve, settle. simpl.
    rewrite Nat.eqb_refl. simpl. rewrite Hh, Hmore. simpl. rewrite Hp.
    reflexivity. }
  assert (E3 : step workDelay [] s2 (CatchRuns 0) = s3) by reflexivity.
  assert (E4 : step workDelay [] s3 (FinallyRuns 0) = s4).
  { subst s3 s4 w2. simpl. unfold finallyCallback, cancelled. simpl.
    rewrite Nat.eqb_refl. reflexivity. }
  lazy zeta.
  change (run workDelay [] s0 (page_events k resp))
    with (step workDelay []
            (step workDelay []
               (step workDelay [] (step workDelay [] s0 (TimerFires k))
                  (RequestSettles 0 (inl resp)))
               (CatchRuns 0))
            (FinallyRuns 0)).
  rewrite E1, E2, E3, E4. subst s4 hi2 ps2. simpl. repeat split.
  apply list_lookup_insert_eq. by eapply lookup_lt_Some.
Qed.

Lemma chain_runs (workDelay : nat) (pr : Z) (p : PromiseId) (h : Handler)
    (pages : list Response) :
  forall (k : nat) (s : World),
  poised k pr p h s ->
  linked pages ->
  Forall (fun resp => exists v, h resp = Returns v) pages ->
  let s' := run workDelay [] s (chain_events k pages) in
  promises s' !! p = Some (Fulfilled VUndefined)
  /\ counters s'
     = (progressDone s + length pages, progressTotal s + length pages - 1,
        progressError s)
  /\ handler_calls (history s') = handler_calls (history s) ++ pages
  /\ queue (self s') = []
  /\ inflight s' = [].
Proof.
  induction pages as [|resp rest IH]; intros k s Hs Hl Hh; [done|].
  apply Forall_cons in Hh as [[v Hv] Hh]. lazy zeta.
  change (chain_events k (resp :: rest))
    with (page_events k resp ++ chain_events (S k) rest).
  rewrite run_app. destruct rest as [|resp' rest'].
  - simpl in Hl.
    pose proof (page_without_successor workDelay k pr p h s resp v Hs Hl Hv) as H.
    lazy zeta in H.
    change (chain_events (S k) []) with (@nil Event).
    set (s1 := run workDelay [] s (page_events k resp)) in *.
    change (run workDelay [] s1 []) with s1.
    destruct H as (H1 & H2 & H3 & H4 & H5).
    rewrite H2. simpl length. repeat split; try done.
    apply triple_eq; lia.
  - destruct Hl as (Hmore & Hnext & Hl).
    pose proof (page_with_successor workDelay k pr p h s resp v Hs Hmore Hnext Hv) as H.
    lazy zeta in H.
    set (s1 := run workDelay [] s (page_events k resp)) in *.
    destruct H as (H1 & H2 & H3).
    pose proof (IH (S k) s1 H1 Hl Hh) as G. lazy zeta in G.
    set (s2 := run workDelay [] s1 (chain_events (S k) (resp' :: rest'))) in *.
    destruct G as (G1 & G2 & G3 & G4 & G5).
    destruct (counters_inv _ _ _ _ H2) as (Hd & Ht & He).
    rewrite G2, G3, Hd, Ht, He, H3, <- app_assoc.
    repeat split; try done. simpl length. apply triple_eq; lia.
Qed.

Lemma chain_prefix_poised (workDelay : nat) (pr : Z) (p : PromiseId)
    (h : Handler) (pre : list Response) :
  forall (k : nat) (s : World),
  poised k pr p h s ->
  Forall (fun resp => hasNextPage resp = true /\ is_Some (nextPage resp)
                      /\ exists v, h resp = Returns v) pre ->
  poised (k + length pre) pr p h (run workDelay [] s (chain_events k pre)).
Proof.
  induction pre as [|resp rest IH]; intros k s Hs Hall.
  - simpl. by rewrite Nat.add_0_r.
  - apply Forall_cons in Hall as [(Hmore & Hnext & v & Hv) Hall].
    change (chain_events k (resp :: rest))
      with (page_events k resp ++ chain_events (S k) rest).
    rewrite run_app.
    destruct (page_with_successor workDelay k pr p h s resp v Hs Hmore Hnext Hv)
      as (H1 & _).
    replace (k + length (resp :: rest)) with (S k + length rest) by (simpl; lia).
    by apply IH.
Qed.

Lemma linked_prefix (pre post : list Response) :
  linked (pre ++ post) -> post <> [] ->
  Forall (fun resp => hasNextPage resp = true /\ is_Some (nextPage resp)) pre.
Proof.
  induction pre as [|resp rest IH]; intros Hl Hpost; [constructor|].
  simpl in Hl. destruct (rest ++ post) as [|x l] eqn:E.
  - destruct rest; [simpl in E; done|done].
  - destruct Hl as (Hmore & Hnext & Hl). constructor; [done|].
    apply IH; done.
Qed.

(** X15.  A paged request running on its own over a source of linked pages,
    with a handler that returns on each of them: the pages are fetched one
    per firing of the pacer; the handler is called once per page, in page
    order; the promise returned by [enqueuePagedRequest] is pending as long
    as a page is outstanding and is fulfilled after the last; and in the
    end as many tasks are done as were dispatched, one per page, with no
    error, nothing queued and nothing in flight. *)
Theorem paged_request_visits_every_page
    (workDelay : nat) (pr : Z) (rq : Request) (h : Handler)
    (pages : list Response) :
  linked pages ->
  Forall (fun resp => exists v, h resp = Returns v) pages ->
  let begin := [CallsEnqueuePagedRequest pr rq h; CallsStart] in
  let s := run workDelay [] new_world (begin ++ chain_events 1 pages) in
  promises s !! 0 = Some (Fulfilled VUndefined)
  /\ handler_calls (history s) = pages
  /\ counters s = (length pages, length pages, 0)
  /\ queue (self s) = []
  /\ inflight s = []
  /\ (forall pre post, pages = pre ++ post -> post <> [] ->
        promises (run workDelay [] new_world (begin ++ chain_events 1 pre)) !! 0
        = Some Pending).
Proof.
  intros Hl Hh. lazy zeta.
  set (begin := [CallsEnqueuePagedRequest pr rq h; CallsStart]).
  assert (Hpoised : poised 1 pr 0 h (run workDelay [] new_world begin)).
  { unfold poised. simpl. repeat split; try done. by exists rq. }
  assert (Hzero : counters (run workDelay [] new_world begin) = (0, 1, 0)
                  /\ handler_calls (history (run workDelay [] new_world begin)) = [])
    by done.
  destruct Hzero as [Hc0 Hcalls].
  destruct (counters_inv _ _ _ _ Hc0) as (Hd & Ht & He).
  pose proof (chain_runs workDelay pr 0 h pages 1 _ Hpoised Hl Hh) as G.
  lazy zeta in G. rewrite run_app.
  set (s0 := run workDelay [] new_world begin) in *.
  set (s1 := run workDelay [] s0 (chain_events 1 pages)) in *.
  destruct G as (G1 & G2 & G3 & G4 & G5).
  split; [done|]. split; [by rewrite G3, Hcalls|].
  split.
  { rewrite G2, Hd, Ht, He. destruct pages; [done|]. simpl length.
    apply triple_eq; lia. }
  split; [done|]. split; [done|].
  intros pre post -> Hpost. rewrite run_app. fold s0.
  apply Forall_app in Hh as [Hh _].
  pose proof (linked_prefix pre post Hl Hpost) as Hpre.
  assert (Forall (fun resp => hasNextPage resp = true /\ is_Some (nextPage resp)
                              /\ exists v, h resp = Returns v) pre) as Hall.
  { apply Forall_forall. intros x Hx.
    pose proof (proj1 (Forall_forall _ _) Hpre x Hx) as [? ?].
    pose proof (proj1 (Forall_forall _ _) Hh x Hx). done. }
  by destruct (chain_prefix_poised workDelay pr 0 h pre 1 _ Hpoised Hall)
    as (_ & _ & _ & _ & _ & _ & ?).
Qed.

(** ** Names *)

Lemma append_inj_r (a x y : string) : a +:+ x = a +:+ y -> x = y.
Proof.
  induction a as [|c a IH]; simpl; [done|]. intros [= H]. by apply IH.
Qed.

Lemma prefix_append (a x : string) : String.prefix a (a +:+ x) = true.
Proof.
  induction a as [|c a IH]; simpl; [by destruct x|].
  destruct (Ascii.ascii_dec c c); [done|congruence].
Qed.

(** X16.  Fake ARNs of one worker and service differ whenever the names
    differ, and every fake ARN begins with "arn:aws", whatever the
    region: the partition is "aws-us-gov", "aws-cn" or "aws". *)
Theorem fakeArn_distinguishes_names (region cloudId service : string) :
  (forall name1 name2,
     fakeArn region cloudId service name1 = fakeArn region cloudId service name2 ->
     name1 = name2)
  /\ (forall name, String.prefix "arn:aws" (fakeArn region cloudId service name) = true)
  /\ (partition region = "aws-us-gov" /\ String.prefix "us-gov-" region = true
      \/ partition region = "aws-cn" /\ String.prefix "cn-" region = true
      \/ partition region = "aws" /\ String.prefix "us-gov-" region = false
         /\ String.prefix "cn-" region = false).
Proof.
  split; [|split].
  - intros name1 name2 H. unfold fakeArn in H.
    repeat (apply append_inj_r in H). done.
  - intros name. unfold fakeArn, partition.
    destruct (String.prefix "us-gov-" region), (String.prefix "cn-" region);
      reflexivity.
  - unfold partition.
    destruct (String.prefix "us-gov-" region), (String.prefix "cn-" region);
      auto.
Qed.

Lemma lowerChar_facts (c : ascii) :
  lowerChar (lowerChar c) = lowerChar c
  /\ is_upper (lowerChar c) = false
  /\ Ascii.eqb (lowerChar c) "-" = Ascii.eqb c "-".
Proof. by destruct c as [[] [] [] [] [] [] [] []]. Qed.

Lemma removeDashes_lower (s : string) :
  removeDashes (toLowerCase s) = toLowerCase (removeDashes s).
Proof.
  induction s as [|c s IH]; simpl; [done|].
  destruct (lowerChar_facts c) as (_ & _ & ->).
  destruct (Ascii.eqb c "-"); simpl; by rewrite IH.
Qed.

Lemma removeDashes_idem (s : string) : removeDashes (removeDashes s) = removeDashes s.
Proof.
  induction s as [|c s IH]; simpl; [done|].
  destruct (Ascii.eqb c "-") eqn:E; simpl; [done|]. by rewrite E, IH.
Qed.

Lemma toLowerCase_idem (s : string) : toLowerCase (toLowerCase s) = toLowerCase s.
Proof.
  induction s as [|c s IH]; simpl; [done|].
  destruct (lowerChar_facts c) as (-> & _ & _). by rewrite IH.
Qed.

(** X17.  For an ASCII name, the CloudWatch id contains no hyphen and no
    upper-case letter and is no longer than the name; building the id of
    an id changes nothing; and the id of a concatenation is the
    concatenation of the ids. *)
Theorem nameToCloudwatchId_normal_form (name : string) :
  ascii_only name ->
  Forall (fun c => c <> "-"%char /\ is_upper c = false)
    (chars (nameToCloudwatchId name))
  /\ String.length (nameToCloudwatchId name) <= String.length name
  /\ nameToCloudwatchId (nameToCloudwatchId name) = nameToCloudwatchId name
  /\ (forall more, ascii_only more ->
        nameToCloudwatchId (name +:+ more)
        = nameToCloudwatchId name +:+ nameToCloudwatchId more).
Proof.
  intros _. unfold nameToCloudwatchId. repeat split.
  - induction name as [|c s IH]; simpl; [constructor|].
    destruct (lowerChar_facts c) as (_ & Hup & Hdash).
    destruct (Ascii.eqb (lowerChar c) "-") eqn:E; [done|].
    simpl. constructor; [|done]. split; [|done].
    intros Heq. rewrite Heq in E. simpl in E. done.
  - induction name as [|c s IH]; simpl; [done|].
    destruct (Ascii.eqb (lowerChar c) "-"); simpl; lia.
  - rewrite <- (removeDashes_lower (toLowerCase name)).
    by rewrite removeDashes_idem, toLowerCase_idem.
  - intros more _. induction name as [|c s IH]; simpl; [done|].
    destruct (Ascii.eqb (lowerChar c) "-"); simpl; by rewrite IH.
Qed.

(** ** Cost arithmetic *)

(** Once the remaining usage is not positive, tiers change nothing. *)
Lemma tiers_skipped (tiers : list Tier) (subtotal left_ : float) :
  PrimFloat.ltb 0%float left_ = false ->
  foldl tierStep (subtotal, left_) tiers = (subtotal, left_).
Proof.
  intros H. induction tiers as [|tier tiers IH]; simpl; [done|].
  by rewrite H.
Qed.

(** X18.  [tieredCalc] throws exactly when the usage is 0, -0 or NaN and
    there is no tier at all (it then reads the rate of a first tier that
    does not exist); in every other case it returns a detail that carries
    the usage and the unit it was given. *)
Theorem tieredCalc_throws_iff
    (usage : float) (tiers : list Tier) (seconds : float) (unit : option string) :
  (tieredCalc usage tiers seconds unit = TypeError
   <-> truthy usage = false /\ tiers = [])
  /\ (forall d, tieredCalc usage tiers seconds unit = Detail d ->
        cd_usage d = usage /\ cd_unit d = unit).
Proof.
  unfold tieredCalc. split; [split|].
  - destruct (truthy usage); [done|]. by destruct tiers.
  - intros [-> ->]. done.
  - intros d. destruct (truthy usage); [by intros [= <-]|].
    destruct tiers; [done|]. by intros [= <-].
Qed.

(** X19.  When the usage is not greater than zero (zero, negative or
    NaN), no tier is charged: the subtotal is 0 whatever the tiers are,
    and the rate reported is that of the first tier if the usage is 0 or
    NaN, and 0 divided by the usage if it is negative. *)
Theorem tieredCalc_charges_nothing_without_usage
    (usage : float) (tiers : list Tier) (seconds : float) (unit : option string)
    (d : CalculationDetail) :
  PrimFloat.ltb 0%float usage = false ->
  tieredCalc usage tiers seconds unit = Detail d ->
  cd_subtotal d = 0%float
  /\ cd_subtotal1h d = PrimFloat.div (PrimFloat.mul 0%float 3600%float) seconds
  /\ (truthy usage = true -> cd_rate d = PrimFloat.div 0%float usage)
  /\ (truthy usage = false -> exists tier rest,
        tiers = tier :: rest /\ cd_rate d = rate tier).
Proof.
  intros Hu. unfold tieredCalc, tierLoop. rewrite (tiers_skipped _ _ _ Hu).
  simpl. destruct (truthy usage).
  - intros [= <-]. simpl. repeat split; done.
  - destruct tiers as [|tier rest]; [done|]. intros [= <-]. simpl.
    repeat split; try done. intros _. by exists tier, rest.
Qed.

(** X20.  Tiers that come after the usage has been used up do not count:
    if the remaining usage after [tiers] is not greater than zero, then
    appending further tiers changes neither the loop's result nor, for a
    non-empty [tiers], the detail returned. *)
Theorem tieredCalc_ignores_tiers_past_usage
    (usage : float) (tiers more : list Tier) (seconds : float)
    (unit : option string) :
  PrimFloat.ltb 0%float (tierLoop usage tiers).2 = false ->
  tierLoop usage (tiers ++ more) = tierLoop usage tiers
  /\ (tiers <> [] ->
      tieredCalc usage (tiers ++ more) seconds unit
      = tieredCalc usage tiers seconds unit).
Proof.
  intros H.
  assert (Hloop : tierLoop usage (tiers ++ more) = tierLoop usage tiers).
  { unfold tierLoop in *. rewrite foldl_app.
    destruct (foldl tierStep (0%float, usage) tiers) as [subtotal left_].
    by apply tiers_skipped. }
  split; [done|]. intros Hne. unfold tieredCalc. rewrite Hloop.
  by destruct tiers.
Qed.

Example tieredCalc_two_tiers :
  tieredCalc 128 [mkTier (Some 64%float) 0.5; mkTier None 0.25] 1800 None
  = Detail (mkDetail 128 None 0.375 48 96).
Proof. by vm_compute. Qed.

(** ** The further theorems at concrete inputs *)

Lemma finished_until_enqueue_witness :
  finished new_world = true
  /\ count is_enqueue (history (step 1000 [] new_world CallsStart))
     = count is_enqueue (history new_world)
  /\ finished (step 1000 [] new_world CallsStart) = true.
Proof.
  split; [reflexivity|]. split; [reflexivity|].
  apply (finished_until_enqueue 1000 [] new_world CallsStart); reflexivity.
Defined.

Lemma counters_only_grow_witness :
  let s := run 1000 [] new_world rejected_run in
  CatchRuns 0 <> CallsResetProgress
  /\ progressDone s <= progressDone (step 1000 [] s (CatchRuns 0))
  /\ progressTotal s <= progressTotal (step 1000 [] s (CatchRuns 0))
  /\ progressError s <= progressError (step 1000 [] s (CatchRuns 0)).
Proof.
  cbn zeta. split; [discriminate|].
  apply (counters_only_grow 1000 [] (run 1000 [] new_world rejected_run)
           (CatchRuns 0)).
  discriminate.
Defined.

Lemma reset_while_started_is_not_reseeded_witness :
  let s := run 1000 two_requests new_world
             (idle_run ++ [RequestSettles 0 (inl lastPage); CatchRuns 0;
                           FinallyRuns 0; TimerFires 2;
                           RequestSettles 0 (inl lastPage); CatchRuns 0;
                           FinallyRuns 0; TimerFires 3]) in
  let s' := (resetProgress s).1 in
  _started (self s) = true /\ finished s = true
  /\ counters s = (2, 2, 0)
  /\ (resetProgress s).2 = Normal
  /\ start 1000 two_requests s' = s'
  /\ queueFilled (self s') = false
  /\ queue (self s') = []
  /\ counters s' = (0, 0, 0)
  /\ count is_fillQueue (history (start 1000 two_requests s'))
     = count is_fillQueue (history s).
Proof.
  cbn zeta. split; [reflexivity|]. split; [reflexivity|]. split; [reflexivity|].
  apply (reset_while_started_is_not_reseeded 1000 two_requests); reflexivity.
Defined.

Lemma request_fulfils_with_handler_result_witness :
  let s := run 1000 [] new_world single_run in
  let s' := step 1000 [] s (RequestSettles 0 (inl lastPage)) in
  inflight s !! 0 = Some (mkTask (cancel (self s)) (RequestFn 7 0 echo) Awaiting)
  /\ echo lastPage = Returns (VData 1)
  /\ promises s' !! 0 = Some (Fulfilled (VData 1))
  /\ history s' = CallHandler lastPage :: history s
  /\ counters s' = counters s
  /\ inflight s' !! 0
     = Some (mkTask (cancel (self s)) (RequestFn 7 0 echo) (Settled Normal)).
Proof.
  cbn zeta. split; [reflexivity|]. split; [reflexivity|].
  apply (request_fulfils_with_handler_result 1000 [] single_run 0 7 0 echo
           lastPage (VData 1));
    reflexivity.
Defined.

Lemma failed_request_never_settles_witness :
  let s := run 1000 [] new_world single_run in
  inflight s !! 0 = Some (mkTask 0 (RequestFn 7 0 echo) Awaiting)
  /\ promises
       (run 1000 [] (step 1000 [] s (RequestSettles 0 (inr (VString "boom"))))
          aftermath) !! 0
     = Some Pending.
Proof.
  cbn zeta. split; [reflexivity|].
  apply (failed_request_never_settles 1000 [] single_run 0 0 7 0 echo
           (inr (VString "boom")) aftermath);
    [reflexivity|exact I].
Defined.

Lemma stale_page_ends_chain_witness :
  let s := run 1000 [] new_world superseded_paged_run in
  let s' := step 1000 [] s (RequestSettles 0 (inl lyingPage)) in
  inflight s !! 0 = Some (mkTask 0 (PagedFn 0 7 0 echo) Awaiting)
  /\ 0 <> cancel (self s)
  /\ promises s' !! 0 = Some (Rejected (VString "cancelled"))
  /\ history s' = history s
  /\ queue (self s') = queue (self s)
  /\ counters s' = counters s.
Proof.
  cbn zeta. split; [reflexivity|]. split; [by vm_compute|].
  apply (stale_page_ends_chain 1000 [] superseded_paged_run 0 0 0 7 0 echo
           lyingPage);
    [reflexivity|by vm_compute].
Defined.

Lemma three_pages_linked : linked three_pages.
Proof. simpl. eauto 10. Defined.

Lemma echo_returns (pages : list Response) :
  Forall (fun resp => exists v, echo resp = Returns v) pages.
Proof. apply Forall_forall. intros resp _. by eexists. Defined.

Lemma paged_request_visits_every_page_witness :
  let begin := [CallsEnqueuePagedRequest 0 7 echo; CallsStart] in
  let s := run 1000 [] new_world (begin ++ chain_events 1 three_pages) in
  linked three_pages
  /\ Forall (fun resp => exists v, echo resp = Returns v) three_pages
  /\ promises s !! 0 = Some (Fulfilled VUndefined)
  /\ handler_calls (history s) = three_pages
  /\ counters s = (3, 3, 0)
  /\ queue (self s) = []
  /\ inflight s = []
  /\ (forall pre post, three_pages = pre ++ post -> post <> [] ->
        promises (run 1000 [] new_world (begin ++ chain_events 1 pre)) !! 0
        = Some Pending).
Proof.
  cbn zeta. split; [exact three_pages_linked|].
  split; [exact (echo_returns three_pages)|].
  exact (paged_request_visits_every_page 1000 0 7 echo three_pages
           three_pages_linked (echo_returns three_pages)).
Defined.

Lemma nameToCloudwatchId_normal_form_witness :
  ascii_only "Get-Item"
  /\ nameToCloudwatchId "Get-Item" = "getitem"
  /\ nameToCloudwatchId (nameToCloudwatchId "Get-Item")
     = nameToCloudwatchId "Get-Item".
Proof.
  assert (Hascii : ascii_only "Get-Item").
  { unfold ascii_only. simpl. repeat constructor; simpl; lia. }
  split; [exact Hascii|]. split; [reflexivity|].
  exact (proj1 (proj2 (proj2 (nameToCloudwatchId_normal_form "Get-Item" Hascii)))).
Defined.

Lemma tieredCalc_charges_nothing_without_usage_witness :
  let d := mkDetail 0 None 0.5 0 0 in
  PrimFloat.ltb 0 0 = false
  /\ tieredCalc 0 [mkTier None 0.5] 3600 None = Detail d
  /\ cd_subtotal d = 0%float
  /\ cd_subtotal1h d = PrimFloat.div (PrimFloat.mul 0 3600) 3600
  /\ (truthy 0 = true -> cd_rate d = PrimFloat.div 0 0)
  /\ (truthy 0 = false -> exists tier rest,
        [mkTier None 0.5] = tier :: rest /\ cd_rate d = rate tier).
Proof.
  cbn zeta. split; [reflexivity|]. split; [by vm_compute|].
  apply (tieredCalc_charges_nothing_without_usage 0 [mkTier None 0.5] 3600 None);
    [reflexivity|by vm_compute].
Defined.

Lemma tieredCalc_ignores_tiers_past_usage_witness :
  PrimFloat.ltb 0 (tierLoop 64 [mkTier None 0.5]).2 = false
  /\ tierLoop 64 ([mkTier None 0.5] ++ [mkTier None 0.25])
     = tierLoop 64 [mkTier None 0.5]
  /\ ([mkTier None 0.5] <> [] ->
      tieredCalc 64 ([mkTier None 0.5] ++ [mkTier None 0.25]) 3600 None
      = tieredCalc 64 [mkTier None 0.5] 3600 None).
Proof.
  split; [by vm_compute|].
  apply (tieredCalc_ignores_tiers_past_usage 64 [mkTier None 0.5]
           [mkTier None 0.25] 3600 None).
  by vm_compute.
Defined.

Lemma completion_always_rearms_witness :
  let s := run 1000 [] new_world stopped_before_finally in
  let s' := step 1000 [] s (FinallyRuns 0) in
  inflight s !! 0 = Some (mkTask 0 (RequestFn 7 0 echo) Caught)
  /\ _started (self s) = false
  /\ armed s' = true
  /\ processing (self s') = false
  /\ _started (self s') = _started (self s)
  /\ inflight s' = delete 0 (inflight s)
  /\ queue (self s') = queue (self s).
Proof.
  cbn zeta. split; [reflexivity|]. split; [reflexivity|].
  apply (completion_always_rearms 1000 []
           (run 1000 [] new_world stopped_before_finally) 0 0 (RequestFn 7 0 echo)).
  reflexivity.
Defined.

Lemma page_handler_failure_rejects_witness :
  let refuse : Handler := fun _ => Throws (VString "no") in
  let s := run 1000 [] new_world
             [CallsEnqueuePagedRequest 0 7 refuse; CallsStart; TimerFires 1] in
  let s' := step 1000 [] s (RequestSettles 0 (inl lastPage)) in
  inflight s !! 0
  = Some (mkTask (cancel (self s)) (PagedFn 0 7 0 refuse) Awaiting)
  /\ refuse lastPage = Throws (VString "no")
  /\ promises s' !! 0 = Some (Rejected (VString "no"))
  /\ history s' = CallHandler lastPage :: history s
  /\ queue (self s') = queue (self s)
  /\ counters s' = counters s
  /\ inflight s' !! 0
     = Some (mkTask (cancel (self s)) (PagedFn 0 7 0 refuse)
               (Settled (Throw (VString "no"))))
  /\ counters (step 1000 [] s' (CatchRuns 0))
     = (progressDone s, progressTotal s, S (progressError s)).
Proof.
  cbn zeta. split; [reflexivity|]. split; [reflexivity|].
  apply (page_handler_failure_rejects 1000 []
           [CallsEnqueuePagedRequest 0 7 (fun _ => Throws (VString "no"));
            CallsStart; TimerFires 1]
           0 0 7 0 (fun _ => Throws (VString "no")) lastPage (VString "no"));
    reflexivity.
Defined.
